(** * commentlogger: the production rewriter (prod.py)

    A shallow embedding of [prod.py]: the canonical log-level table
    [LOGLEVELS], the comment classifier [parseComment], the decorator filter
    [shouldSkipDecoratorLine], the structural analysis [extractLoggerInfo]
    and the line rewriter [injectLogging].

    Text.  A Python [str] is a [string]; the embedding reads it over the
    ASCII alphabet: a character of code 128 or more is carried through
    unchanged and belongs to no character class (not a space, not a word
    character, no case).

    Syntax trees.  [ast.parse] and [ast.walk] belong to Python's standard
    library.  The embedding takes them together as one function,
    [ast_parse], from the source text to the nodes of the tree in the order
    [ast.walk] yields them, or [None] where [ast.parse] raises.  The
    function is the one method of the class [Parser]; every definition that
    parses takes a parser, and every theorem holds for all parsers. *)

From Stdlib Require Import String Ascii List ZArith Lia Bool Sorted.
From stdpp Require Import gmap strings list fin_maps.

Local Open Scope Z_scope.
Set Warnings "-register-all".

(** ** Characters and strings, as Python's [str] methods treat them *)

Module Str.

Definition code (c : ascii) : N := N_of_ascii c.

Definition between (lo hi : N) (c : ascii) : bool :=
  ((lo <=? code c) && (code c <=? hi))%N.

(** [str.isspace] on ASCII: tab, line feed, vertical tab, form feed,
    carriage return, the four separators 28..31, and the space. *)
Definition is_space (c : ascii) : bool :=
  between 9 13 c || between 28 32 c.

Definition is_upper (c : ascii) : bool := between 65 90 c.
Definition is_lower (c : ascii) : bool := between 97 122 c.
Definition is_digit (c : ascii) : bool := between 48 57 c.

(** The class [\w] on ASCII. *)
Definition is_word (c : ascii) : bool :=
  is_upper c || is_lower c || is_digit c || Ascii.eqb c "_".

Definition upper_char (c : ascii) : ascii :=
  if is_lower c then ascii_of_N (code c - 32) else c.

Definition lower_char (c : ascii) : ascii :=
  if is_upper c then ascii_of_N (code c + 32) else c.

Fixpoint map (f : ascii -> ascii) (s : string) : string :=
  match s with
  | EmptyString => EmptyString
  | String c r => String (f c) (map f r)
  end.

Definition upper : string -> string := map upper_char.
Definition lower : string -> string := map lower_char.

Fixpoint take_while (p : ascii -> bool) (s : string) : string :=
  match s with
  | EmptyString => EmptyString
  | String c r => if p c then String c (take_while p r) else EmptyString
  end.

Fixpoint drop_while (p : ascii -> bool) (s : string) : string :=
  match s with
  | EmptyString => EmptyString
  | String c r => if p c then drop_while p r else s
  end.

Fixpoint rev_onto (s acc : string) : string :=
  match s with
  | EmptyString => acc
  | String c r => rev_onto r (String c acc)
  end.

Definition rev (s : string) : string := rev_onto s EmptyString.

Definition lstrip (s : string) : string := drop_while is_space s.
Definition rstrip (s : string) : string := rev (drop_while is_space (rev s)).

(** [s.strip()] *)
Definition strip (s : string) : string := rstrip (lstrip s).

(** [s.startswith(p)] *)
Definition startswith (s p : string) : bool := String.prefix p s.

(** [c in s] for a single character [c] *)
Fixpoint has_char (c : ascii) (s : string) : bool :=
  match s with
  | EmptyString => false
  | String d r => Ascii.eqb c d || has_char c r
  end.

(** [p in s] for a substring [p] *)
Fixpoint contains (p s : string) : bool :=
  match s with
  | EmptyString => String.prefix p EmptyString
  | String _ r => String.prefix p s || contains p r
  end.

(** [s.partition(sep)] for a one-character separator: the text before the
    first [sep], the separator found (empty if none), the text after. *)
Fixpoint partition (sep : ascii) (s : string) : string * string * string :=
  match s with
  | EmptyString => (EmptyString, EmptyString, EmptyString)
  | String c r =>
      if Ascii.eqb c sep then (EmptyString, String sep EmptyString, r)
      else let '(a, m, b) := partition sep r in (String c a, m, b)
  end.

(** [s.split(sep)[0]]: the text before the first [sep], all of [s] if
    there is none. *)
Definition split_first (sep : ascii) (s : string) : string :=
  take_while (fun c => negb (Ascii.eqb c sep)) s.

Definition LF : ascii := "010".
Definition CR : ascii := "013".

(** The line boundaries of [str.splitlines] on ASCII: line feed, vertical
    tab, form feed, carriage return and the separators 28..30. *)
Definition is_linebreak (c : ascii) : bool :=
  between 10 13 c || between 28 30 c.

(** [s.splitlines()]: the lines without their boundaries; a carriage
    return followed by a line feed is one boundary; no empty last line. *)
Fixpoint splitlines (s : string) : list string :=
  match s with
  | EmptyString => []
  | String c r =>
      if is_linebreak c then
        match r with
        | String d r' =>
            if Ascii.eqb c CR && Ascii.eqb d LF
            then EmptyString :: splitlines r'
            else EmptyString :: splitlines r
        | EmptyString => [EmptyString]
        end
      else
        match splitlines r with
        | [] => [String c EmptyString]
        | l :: ls => String c l :: ls
        end
  end.

(** [sep.join(ls)] *)
Fixpoint join (sep : string) (ls : list string) : string :=
  match ls with
  | [] => EmptyString
  | [l] => l
  | l :: ls' => l +:+ sep +:+ join sep ls'
  end.

Definition nl : string := String LF EmptyString.
Definition dquote : string := String "034" EmptyString.

End Str.

Import Str.

(** ** The canonical log levels (prod.py, lines 5-12) *)

(** [logging._nameToLevel] of Python's standard library, a dict literal:
    its items in insertion order. *)
Definition _nameToLevel : list (string * Z) :=
  [("CRITICAL", 50); ("FATAL", 50); ("ERROR", 40); ("WARN", 30);
   ("WARNING", 30); ("INFO", 20); ("DEBUG", 10); ("NOTSET", 0)].

(** Line 9: [any(_k.startswith(k) and v==_v for _k,_v in table.items() if k != _k)] *)
Definition has_alias (table : list (string * Z)) (k : string) (v : Z) : bool :=
  existsb (fun '(_k, _v) =>
             negb (String.eqb k _k) && (startswith _k k && (v =? _v)))
          table.

(** [d.pop(k)] on a dict held as its list of items. *)
Definition pop (k : string) (d : list (string * Z)) : list (string * Z) :=
  List.filter (fun '(_k, _) => negb (String.eqb _k k)) d.

(** Lines 9-10, for one item of the table: pop the name from the copy [d]
    if another name of the same level starts with it. *)
Definition pop_alias (table d : list (string * Z)) (kv : string * Z)
  : list (string * Z) :=
  let '(k, v) := kv in if has_alias table k v then pop k d else d.

(** Lines 6-10: copy the table, then walk the original. *)
Definition drop_aliases (table : list (string * Z)) : list (string * Z) :=
  fold_left (pop_alias table) table table.

(** [sorted] on strings: Python orders [str] by code points, as
    [String.leb] does. *)
Fixpoint insert_sorted (x : string) (l : list string) : list string :=
  match l with
  | [] => [x]
  | y :: r => if String.leb x y then x :: l else y :: insert_sorted x r
  end.

Definition sorted (l : list string) : list string :=
  fold_right insert_sorted [] l.

(** Line 12: [sorted(LOGLEVELS.keys())] for any table of levels. *)
Definition levels_of (table : list (string * Z)) : list string :=
  sorted (List.map fst (drop_aliases table)).

Definition LOGLEVELS : list string := levels_of _nameToLevel.

(** The rank the table gives a name. *)
Definition rank (table : list (string * Z)) (k : string) : option Z :=
  snd <$> List.find (fun '(_k, _) => String.eqb _k k) table.

(** ** parseComment (prod.py, lines 15-40) *)

(** Line 34: [next(L for L in LOGLEVELS if L.startswith(level.upper()))];
    [None] stands for [StopIteration]. *)
Definition resolveLevel (level : string) : option string :=
  List.find (fun L => startswith L (upper level)) LOGLEVELS.

Definition parseComment (comment : string) : string * string :=
  let '(level, _, logline) := partition ":" comment in
  let level := strip level in
  let logline := strip logline in
  if String.eqb level EmptyString then ("INFO"%string, comment)
  else match resolveLevel level with
       | Some L => (L, logline)
       | None => ("INFO"%string, comment)
       end.

(** ** Syntax trees: the part of Python's [ast] the program inspects *)

(** [ast.alias]: [asname] is [None] without an [as] clause. *)
Record alias := { alias_name : string; alias_asname : option string }.

(** Expressions as far as a decorator is inspected. *)
Inductive expr :=
| Name (id : string)
| Attribute (value : expr) (attr : string)
| Call (func : expr) (args : list expr)
| OtherExpr.

(** Nodes as far as [isinstance] tells them apart.  [ImportFrom]'s module is
    [None] for [from . import x]. *)
Inductive node :=
| ImportFrom (module : option string) (names : list alias)
| Import (names : list alias)
| FunctionDef (name : string) (lineno : Z) (end_lineno : option Z)
              (decorator_list : list expr)
| AsyncFunctionDef (name : string) (lineno : Z) (end_lineno : option Z)
                   (decorator_list : list expr)
| OtherNode.

(** Python truth of a [str] and of an optional [str]. *)
Definition truthy (s : string) : bool := negb (String.eqb s EmptyString).

Definition otruthy (o : option string) : bool :=
  match o with Some s => truthy s | None => false end.

(** [alias.asname if alias.asname else other] *)
Definition asname_or (a : alias) (other : string) : string :=
  match alias_asname a with
  | Some n => if truthy n then n else other
  | None => other
  end.

(** A function definition of either kind, with its fields. *)
Definition as_def (n : node) : option (string * Z * option Z * list expr) :=
  match n with
  | FunctionDef name l e ds | AsyncFunctionDef name l e ds => Some (name, l, e, ds)
  | _ => None
  end.

(** ** The regular expressions of the program *)

(** Line 60, [re.match] on the stripped line, group 1.  The pattern is an
    at sign, one or more word characters or dots (the group), any spaces,
    an open bracket.  The three classes are disjoint, so the only match is
    the greedy one: the longest run of word characters and dots after the
    at sign, not empty, then the longest run of spaces, then the bracket. *)
Definition is_name_char (c : ascii) : bool := is_word c || Ascii.eqb c ".".

Definition decorator_match (s : string) : option string :=
  match s with
  | String "@" r =>
      let name := take_while is_name_char r in
      if String.eqb name EmptyString then None
      else match drop_while is_space (drop_while is_name_char r) with
           | String "(" _ => Some name
           | _ => None
           end
  | _ => None
  end.

(** Line 209, [re.search] on the line, group 1.  The pattern is a hash, any
    spaces, then any characters but a line feed (the group).  The search
    succeeds at the first hash; after it the spaces are skipped and the
    group runs to the end of the text or to the first line feed. *)
Fixpoint after_hash (line : string) : option string :=
  match line with
  | EmptyString => None
  | String c r => if Ascii.eqb c "#" then Some r else after_hash r
  end.

Definition comment_match (line : string) : option string :=
  match after_hash line with
  | Some r => Some (split_first LF (drop_while is_space r))
  | None => None
  end.

(** Line 213, [re.match] of leading spaces, group 1; it always matches. *)
Definition indent_match (line : string) : string := take_while is_space line.

(** ** The program over a parser *)

(** [ast.walk(ast.parse(sourceCode))] as a list, [None] where parsing
    raises. *)
Class Parser := ast_parse : string -> option (list node).

Section Program.

Context {parser : Parser}.

Definition commentlogger : string := "commentlogger".

(** *** shouldSkipDecoratorLine (prod.py, lines 43-86) *)

(** Lines 71-82, for one node of the walk: does it import [baseName] (or
    [decoratorName]) from commentlogger? *)
Definition imports_name (baseName decoratorName : string) (n : node) : bool :=
  match n with
  | ImportFrom module names =>
      bool_decide (module = Some commentlogger) &&
      existsb (fun a =>
                 let importedName := asname_or a (alias_name a) in
                 String.eqb baseName importedName ||
                 String.eqb decoratorName importedName)
              names
  | Import names =>
      existsb (fun a =>
                 String.eqb (alias_name a) commentlogger &&
                 String.eqb baseName (asname_or a commentlogger))
              names
  | _ => false
  end.

Definition shouldSkipDecoratorLine (line sourceCode : string) : bool :=
  let stripped := strip line in
  if negb (startswith stripped "@") then false
  else match decorator_match stripped with
       | None => false
       | Some decoratorName =>
           let baseName := split_first "." decoratorName in
           match ast_parse sourceCode with
           | Some tree => existsb (imports_name baseName decoratorName) tree
           | None => false
           end
       end.

(** *** extractLoggerInfo (prod.py, lines 89-149) *)

(** Lines 107-116, for one node of the walk. *)
Definition add_imports (clNames : gset string) (n : node) : gset string :=
  match n with
  | ImportFrom module names =>
      if bool_decide (module = Some commentlogger)
      then fold_left (fun s a => {[asname_or a (alias_name a)]} ∪ s) names clNames
      else clNames
  | Import names =>
      fold_left (fun s a =>
                   if String.eqb (alias_name a) commentlogger
                   then {[asname_or a (alias_name a)]} ∪ s else s)
                names clNames
  | _ => clNames
  end.

Definition clNames_of (tree : list node) : gset string :=
  fold_left add_imports tree ∅.

(** Lines 126-134: the name of the decorator's callee, if it has one. *)
Definition decoratorName_of (clNames : gset string) (func : expr) : option string :=
  match func with
  | Name id => Some id
  | Attribute (Name moduleName) attr =>
      if bool_decide (moduleName ∈ clNames)
      then Some (moduleName +:+ "." +:+ attr) else None
  | _ => None
  end.

(** Lines 136-139: the callee is bound to commentlogger. *)
Definition is_marker (clNames : gset string) (func : expr) : bool :=
  match decoratorName_of clNames func with
  | Some decoratorName =>
      truthy decoratorName &&
      (bool_decide (decoratorName ∈ clNames) ||
       bool_decide (split_first "." decoratorName ∈ clNames))
  | None => false
  end.

(** Lines 125-144, for one decorator of the definition [name]; the state
    is [(loggerName, decoratedFunctions)]. *)
Definition visit_decorator (clNames : gset string) (name : string)
    (st : option string * gset string) (decorator : expr)
  : option string * gset string :=
  match decorator with
  | Call func args =>
      if is_marker clNames func then
        match args with
        | Name id :: _ => (Some id, {[name]} ∪ st.2)
        | _ => st
        end
      else st
  | _ => st
  end.

(** Lines 123-144, for one node of the walk. *)
Definition visit_node (clNames : gset string)
    (st : option string * gset string) (n : node)
  : option string * gset string :=
  match as_def n with
  | Some (name, _, _, decorator_list) =>
      fold_left (visit_decorator clNames name) decorator_list st
  | None => st
  end.

Definition extractLoggerInfo (sourceCode : string) : option string * gset string :=
  match ast_parse sourceCode with
  | Some tree => fold_left (visit_node (clNames_of tree)) tree (None, ∅)
  | None => (None, ∅)
  end.

(** *** injectLogging (prod.py, lines 152-241) *)

(** Line 185: [range(lineno, end_lineno + 1 if end_lineno else lineno + 1)] *)
Definition def_lines (lineno : Z) (end_lineno : option Z) : list Z :=
  let stop := match end_lineno with
              | Some e => if e =? 0 then lineno + 1 else e + 1
              | None => lineno + 1
              end in
  seqZ lineno (stop - lineno).

(** Lines 184-186, for one node of the walk. *)
Definition map_lines (m : gmap Z string) (n : node) : gmap Z string :=
  match as_def n with
  | Some (name, lineno, end_lineno, _) =>
      fold_left (fun m i => <[i := name]> m) (def_lines lineno end_lineno) m
  | None => m
  end.

(** Lines 179-188. *)
Definition lineToFunction_of (sourceCode : string) : gmap Z string :=
  match ast_parse sourceCode with
  | Some tree => fold_left map_lines tree ∅
  | None => ∅
  end.

(** The local variables of [injectLogging] that its loop reads. *)
Record locals := {
  sourceCode : string;
  loggerName : string;
  decoratedFunctions : gset string;
  importsLogging : bool;
  lineToFunction : gmap Z string
}.

(** The variables the loop writes. *)
Record state := { newLines : list string; addedImports : bool }.

Definition import_logging : string := "import logging".

(** Lines 166-188. *)
Definition locals_of (src : string) : locals :=
  let '(detectedLogger, decorated) := extractLoggerInfo src in
  {| sourceCode := src;
     loggerName := if otruthy detectedLogger
                   then default EmptyString detectedLogger
                   else "logger";
     decoratedFunctions := decorated;
     importsLogging := contains import_logging src;
     lineToFunction := lineToFunction_of src |}.

(** Lines 195-200: the line is a place for the import. *)
Definition import_here (i : nat) (line : string) : bool :=
  let stripped := strip line in
  negb (startswith stripped "#") &&
  negb (startswith stripped (dquote +:+ dquote +:+ dquote)) &&
  negb (startswith stripped "'''") &&
  negb (String.eqb stripped EmptyString) &&
  (0 <? i)%nat.

(** [currFunc in decoratedFunctions], where [currFunc] may be [None]. *)
Definition member (currFunc : option string) (s : gset string) : bool :=
  match currFunc with
  | Some f => bool_decide (f ∈ s)
  | None => false
  end.

(** Line 222. *)
Definition logStatement (indent loggerName logLevel logMessage : string) : string :=
  indent +:+ loggerName +:+ "." +:+ lower logLevel +:+ "(" +:+ dquote
         +:+ logMessage +:+ dquote +:+ ")".

(** Lines 209-223: the statement put before line [i] (counted from 0), if
    any. *)
Definition injection (L : locals) (i : nat) (line : string) : option string :=
  match comment_match line with
  | Some group1 =>
      let commentText := strip group1 in
      let indent := indent_match line in
      let preCommentCode := strip (split_first "#" line) in
      let currFunc := lineToFunction L !! (Z.of_nat i + 1) in
      if truthy preCommentCode && member currFunc (decoratedFunctions L) &&
         negb (has_char "@" preCommentCode)
      then let '(logLevel, logMessage) := parseComment commentText in
           Some (logStatement indent (loggerName L) logLevel logMessage)
      else None
  | None => None
  end.

(** Lines 192-226: one turn of the loop, at index [i]. *)
Definition loop_body (L : locals) (i : nat) (line : string) (st : state) : state :=
  let st :=
    if negb (addedImports st) && negb (importsLogging L) && import_here i line
    then {| newLines := newLines st ++ [import_logging; EmptyString];
            addedImports := true |}
    else st in
  if shouldSkipDecoratorLine line (sourceCode L) then st
  else
    let out := match injection L i line with
               | Some stmt => newLines st ++ [stmt]
               | None => newLines st
               end in
    {| newLines := out ++ [line]; addedImports := addedImports st |}.

(** Lines 190-226: the loop from index [i] over the lines left. *)
Fixpoint loop (L : locals) (i : nat) (lines : list string) (st : state) : state :=
  match lines with
  | [] => st
  | line :: rest => loop L (S i) rest (loop_body L i line st)
  end.

(** The lines of the output. *)
Definition rewrite (src : string) : list string :=
  newLines (loop (locals_of src) 0 (splitlines src)
                 {| newLines := []; addedImports := false |}).

(** The text returned (line 228); reading and writing files is left to
    the caller. *)
Definition injectLogging (src : string) : string := join nl (rewrite src).

End Program.

(** ** Example sources, with the walks Python's parser gives them *)

Module Examples.

Definition others (n : nat) : list node := repeat OtherNode n.

(** A marker decorator without arguments, through the module import. *)
Definition src_drop : string :=
  join nl ["import commentlogger";
           "@commentlogger.logcomments()";
           "def f():";
           "    x = 1  # note"].

Definition walk_drop : list node :=
  [OtherNode;
   Import [{| alias_name := "commentlogger"; alias_asname := None |}];
   FunctionDef "f" 3 (Some 4)
     [Call (Attribute (Name "commentlogger") "logcomments") []]]
  ++ others 11.

(** An instrumented function; the file imports logging already. *)
Definition src_inst : string :=
  join nl ["from commentlogger import logcomments";
           "import logging";
           "@logcomments(log)";
           "def f():";
           "    x = 1  # error: disk full";
           "    y = 2  #";
           "    return x"].

Definition walk_inst : list node :=
  [OtherNode;
   ImportFrom (Some "commentlogger")
     [{| alias_name := "logcomments"; alias_asname := None |}];
   Import [{| alias_name := "logging"; alias_asname := None |}];
   FunctionDef "f" 4 (Some 7) [Call (Name "logcomments") [Name "log"]]]
  ++ others 19.

(** Two plain statements. *)
Definition src_plain : string := join nl ["x = 1"; "y = 2"].

Definition walk_plain : list node := others 9.

(** Two instrumented functions with different loggers, the marker
    imported under another name. *)
Definition src_two : string :=
  join nl ["from commentlogger import logcomments as lc";
           "@lc(a)";
           "def f():";
           "    x = 1  # one";
           "@lc(b)";
           "def g():";
           "    y = 2  # warn: two"].

Definition walk_two : list node :=
  [OtherNode;
   ImportFrom (Some "commentlogger")
     [{| alias_name := "logcomments"; alias_asname := Some "lc" |}];
   FunctionDef "f" 3 (Some 4) [Call (Name "lc") [Name "a"]];
   FunctionDef "g" 6 (Some 7) [Call (Name "lc") [Name "b"]]]
  ++ others 21.

(** A source Python's parser rejects. *)
Definition src_bad : string := "def f(:  # note".

(** The state the loop starts in. *)
Definition start : state := {| newLines := []; addedImports := false |}.

(** Lines of the sources above. *)
Definition decorator_line : string := "@commentlogger.logcomments()".
Definition line_error : string := "    x = 1  # error: disk full".
Definition line_bare_hash : string := "    y = 2  #".

(** The parser on the sources above; [None] elsewhere. *)
Definition parser : Parser := λ src,
  if String.eqb src src_drop then Some walk_drop
  else if String.eqb src src_inst then Some walk_inst
  else if String.eqb src src_plain then Some walk_plain
  else if String.eqb src src_two then Some walk_two
  else None.

End Examples.

(** ** Notions the statements use *)

(** [k] is a proper beginning of [k']. *)
Definition strict_prefix (k k' : string) : Prop :=
  startswith k' k = true ∧ k ≠ k'.

(** No two names of [names] with the same rank in [table] where one is a
    proper beginning of the other. *)
Definition prefix_free (table : list (string * Z)) (names : list string) : Prop :=
  ∀ k k', k ∈ names → k' ∈ names → rank table k = rank table k' →
          ¬ strict_prefix k k'.

(** Each pair of same-rank names of [table], one a proper beginning of the
    other, is represented in [names] by the shorter name alone. *)
Definition collapsed_to_shortest (table : list (string * Z)) (names : list string) : Prop :=
  ∀ k k' v, (k, v) ∈ table → (k', v) ∈ table → strict_prefix k k' →
            k ∈ names ∧ k' ∉ names.

(** The order of [sorted]. *)
Definition leb_string (a b : string) : Prop := String.leb a b = true.

(** [comment] cut at its first colon: [before] has no colon and the rest
    follows the colon; without a colon [before] is the whole text. *)
Definition cut_at_colon (comment before rest : string) : Prop :=
  (comment = before +:+ ":" +:+ rest ∧ has_char ":" before = false) ∨
  (has_char ":" comment = false ∧ before = comment ∧ rest = EmptyString).

Definition INFO : string := "INFO".

(** A line that is not blank, not a comment and not the opening of a
    docstring (lines 196-199). *)
Definition code_line (line : string) : bool :=
  let stripped := strip line in
  negb (startswith stripped "#") &&
  negb (startswith stripped (dquote +:+ dquote +:+ dquote)) &&
  negb (startswith stripped "'''") &&
  negb (String.eqb stripped EmptyString).

(** The two lines of the import bootstrap. *)
Definition bootstrap : list string := [import_logging; EmptyString].

(** Every character of [s] satisfies [p]. *)
Fixpoint all_chars (p : ascii → bool) (s : string) : bool :=
  match s with
  | EmptyString => true
  | String c r => p c && all_chars p r
  end.

(** The first positional argument, when it is a bare identifier. *)
Definition bare_first_arg (args : list expr) : option string :=
  match args with
  | Name id :: _ => Some id
  | _ => None
  end.

Section Notions.

Context {parser : Parser}.

(** Whether the turn of the loop at line [i] puts the import in (lines
    194-203). *)
Definition imports_now (L : locals) (i : nat) (line : string) (st : state) : bool :=
  negb (addedImports st) && negb (importsLogging L) && import_here i line.

(** What one turn of the loop puts out for line [i], the import apart:
    nothing for a line the decorator filter skips, else the injected
    statement, if any, and the line. *)
Definition emit (L : locals) (i : nat) (line : string) : list string :=
  if shouldSkipDecoratorLine line (sourceCode L) then []
  else match injection L i line with
       | Some stmt => [stmt; line]
       | None => [line]
       end.

Fixpoint emits (L : locals) (i : nat) (lines : list string) : list string :=
  match lines with
  | [] => []
  | line :: rest => emit L i line ++ emits L (S i) rest
  end.

(** The lines the decorator filter keeps. *)
Definition kept (src : string) (lines : list string) : list string :=
  List.filter (λ line, negb (shouldSkipDecoratorLine line src)) lines.

(** The instrumenting decorators of a definition, as pairs of the
    function's name and the logger's name, in the order of the decorator
    list. *)
Definition markers_of (clNames : gset string) (n : node) : list (string * string) :=
  match as_def n with
  | Some (name, _, _, decorator_list) =>
      omap (λ d, match d with
                 | Call func args =>
                     if is_marker clNames func
                     then (λ id, (name, id)) <$> bare_first_arg args
                     else None
                 | _ => None
                 end) decorator_list
  | None => []
  end.

(** The instrumented definitions of a source in the order of the walk;
    none where the source does not parse. *)
Definition instrumented (src : string) : list (string * string) :=
  match ast_parse src with
  | Some tree => tree ≫= markers_of (clNames_of tree)
  | None => []
  end.

(** What a run of instrumenting decorators does to the state of the
    walk, the logger name and the set of functions: the last logger wins,
    every function is added. *)
Definition run_markers (ms : list (string * string))
    (st : option string * gset string) : option string * gset string :=
  (match last ms with Some (_, id) => Some id | None => st.1 end,
   list_to_set ms.*1 ∪ st.2).

(** The text is the input, or the input with the import bootstrap put in
    at one place. *)
Definition same_but_bootstrap (src out : string) : Prop :=
  out = src ∨
  ∃ pre post, src = pre +:+ post ∧
              out = pre +:+ import_logging +:+ nl +:+ nl +:+ post.

End Notions.

(** ** Further notions *)

(** The last line of a definition's range (line 185): its end line, or
    its first line where the end line is missing or zero. *)
Definition last_line (lineno : Z) (end_lineno : option Z) : Z :=
  match end_lineno with
  | Some e => if e =? 0 then lineno else e
  | None => lineno
  end.

(** The name of the definition [n] if its range holds line [i]. *)
Definition covers (n : node) (i : Z) : option string :=
  match as_def n with
  | Some (name, lineno, end_lineno, _) =>
      if (lineno <=? i) && (i <=? last_line lineno end_lineno)
      then Some name else None
  | None => None
  end.

(** The definitions of the walk whose range holds line [i], in the order
    of the walk. *)
Definition covering (tree : list node) (i : Z) : list string :=
  omap (λ n, covers n i) tree.

(** The node imports from commentlogger, or imports commentlogger. *)
Definition mentions_commentlogger (n : node) : bool :=
  match n with
  | ImportFrom module _ => bool_decide (module = Some commentlogger)
  | Import names =>
      existsb (λ a, String.eqb (alias_name a) commentlogger) names
  | _ => false
  end.

(** A character that ends no line. *)
Definition in_line (c : ascii) : bool := negb (is_linebreak c).

(** ** Two definitions of one name *)

Module SameName.

(** Two methods named [run]: the first instrumented, the second with a
    marker call without arguments. *)
Definition src_same : string :=
  join nl ["from commentlogger import logcomments as lc";
           "class A:";
           "    @lc(log)";
           "    def run(self):";
           "        x = 1  # a";
           "class B:";
           "    @lc()";
           "    def run(self):";
           "        y = 2  # b"].

(** The second method. *)
Definition def_b : node := FunctionDef "run" 8 (Some 9) [Call (Name "lc") []].

Definition walk_same : list node :=
  [OtherNode;
   ImportFrom (Some "commentlogger")
     [{| alias_name := "logcomments"; alias_asname := Some "lc" |}];
   OtherNode; OtherNode; OtherNode;
   FunctionDef "run" 4 (Some 5) [Call (Name "lc") [Name "log"]];
   def_b]
  ++ Examples.others 20.

(** The parser on this source; [None] elsewhere. *)
Definition parser : Parser := λ src,
  if String.eqb src src_same then Some walk_same else None.

(** The line of the second method's body, and the statement put before
    it. *)
Definition line_b : string := "        y = 2  # b".
Definition stmt_b : string :=
  "        log.info(" +:+ dquote +:+ "b" +:+ dquote +:+ ")".

End SameName.

Section Worded.

Context {parser : Parser}.


End Worded.

(** * Proofs *)

(** ** Strings *)

Lemma eqb_string_true (a b : string) : String.eqb a b = true ↔ a = b.
Proof. apply String.eqb_eq. Qed.

Lemma eqb_string_false (a b : string) : String.eqb a b = false ↔ a ≠ b.
Proof. apply String.eqb_neq. Qed.

(** ** The level table *)

Section Levels.

Variable table : list (string * Z).

Lemma elem_of_pop k0 k v d : (k, v) ∈ pop k0 d ↔ (k, v) ∈ d ∧ k ≠ k0.
Proof.
  unfold pop. rewrite list_elem_of_In, filter_In, <- list_elem_of_In.
  rewrite negb_true_iff, eqb_string_false. tauto.
Qed.

Lemma elem_of_fold_pop (l d : list (string * Z)) k v :
  (k, v) ∈ fold_left (pop_alias table) l d ↔
  (k, v) ∈ d ∧ ∀ v', (k, v') ∈ l → has_alias table k v' = false.
Proof.
  revert d. induction l as [|[k1 v1] l IH]; intros d; simpl.
  - split; [intros H; split; [done|] | tauto].
    intros v' Hin. inversion Hin.
  - rewrite IH. destruct (has_alias table k1 v1) eqn:E.
    + rewrite elem_of_pop. split.
      * intros [[Hd Hne] Hl]. split; [done|]. intros v' Hin.
        apply elem_of_cons in Hin as [Heq|Hin]; [congruence | auto].
      * intros [Hd Hl]. split; [split; [done|] |].
        -- intros ->. specialize (Hl v1 ltac:(left)). congruence.
        -- intros v' Hin. apply Hl. by right.
    + split.
      * intros [Hd Hl]. split; [done|]. intros v' Hin.
        apply elem_of_cons in Hin as [Heq|Hin]; [congruence | auto].
      * intros [Hd Hl]. split; [done|]. intros v' Hin. apply Hl. by right.
Qed.

Lemma elem_of_drop_aliases k v :
  (k, v) ∈ drop_aliases table ↔
  (k, v) ∈ table ∧ ∀ v', (k, v') ∈ table → has_alias table k v' = false.
Proof. apply elem_of_fold_pop. Qed.

Lemma has_alias_true k v :
  has_alias table k v = true ↔
  ∃ k', (k', v) ∈ table ∧ strict_prefix k k'.
Proof.
  unfold has_alias, strict_prefix. rewrite existsb_exists. split.
  - intros [[k' v'] [Hin H]]. apply andb_true_iff in H as [Hne H].
    apply andb_true_iff in H as [Hp Hv].
    apply negb_true_iff, eqb_string_false in Hne. apply Z.eqb_eq in Hv.
    subst v'. exists k'. by rewrite list_elem_of_In.
  - intros (k' & Hin & Hp & Hne). exists (k', v).
    rewrite <- list_elem_of_In. split; [done|].
    rewrite Hp, Z.eqb_refl. apply eqb_string_false in Hne. by rewrite Hne.
Qed.

Lemma elem_of_insert_sorted x y l : x ∈ insert_sorted y l ↔ x = y ∨ x ∈ l.
Proof.
  induction l as [|z l IH]; simpl.
  - rewrite list_elem_of_singleton, elem_of_nil. tauto.
  - destruct (String.leb y z); rewrite !elem_of_cons; [tauto|].
    rewrite IH. tauto.
Qed.

Lemma elem_of_sorted x l : x ∈ sorted l ↔ x ∈ l.
Proof.
  induction l as [|y l IH]; simpl; [done|].
  rewrite elem_of_insert_sorted, elem_of_cons, IH. tauto.
Qed.

Lemma elem_of_levels_of k :
  k ∈ levels_of table ↔
  ∃ v, (k, v) ∈ table ∧ ∀ v', (k, v') ∈ table → has_alias table k v' = false.
Proof.
  unfold levels_of. rewrite elem_of_sorted, list_elem_of_In, in_map_iff. split.
  - intros [[k0 v] [Heq Hin]]. simpl in Heq. subst k0. exists v.
    by apply elem_of_drop_aliases, list_elem_of_In.
  - intros [v H]. exists (k, v). split; [done|].
    by apply list_elem_of_In, elem_of_drop_aliases.
Qed.

Lemma rank_elem_of k v : rank table k = Some v → (k, v) ∈ table.
Proof.
  unfold rank. destruct (find _ table) as [[k0 v0]|] eqn:E; [|done].
  simpl. intros [= <-]. apply find_some in E as [Hin Heq].
  apply eqb_string_true in Heq. subst. by apply list_elem_of_In.
Qed.

Lemma rank_is_Some k v : (k, v) ∈ table → is_Some (rank table k).
Proof.
  unfold rank. intros Hin. destruct (find _ table) as [[k0 v0]|] eqn:E.
  - by eexists.
  - apply list_elem_of_In in Hin. eapply find_none in E; [|done].
    simpl in E. by rewrite String.eqb_refl in E.
Qed.

(** Whatever the table, the names kept are free of same-rank beginnings. *)
Lemma levels_of_prefix_free : prefix_free table (levels_of table).
Proof.
  intros k k' Hk Hk' Hr Hp.
  apply elem_of_levels_of in Hk as (v & Hin & Hno).
  apply elem_of_levels_of in Hk' as (v' & Hin' & _).
  destruct (rank_is_Some _ _ Hin') as [w Hw]. pose proof Hw as Hw'.
  rewrite <- Hr in Hw'. apply rank_elem_of in Hw, Hw'.
  specialize (Hno w Hw'). 
  assert (has_alias table k w = true) by (apply has_alias_true; eauto).
  congruence.
Qed.

(** A name that a longer name of its rank starts with is dropped. *)
Lemma levels_of_drops_shorter k k' v :
  (k, v) ∈ table → (k', v) ∈ table → strict_prefix k k' →
  k ∉ levels_of table.
Proof.
  intros Hin Hin' Hp Hk. apply elem_of_levels_of in Hk as (w & _ & Hno).
  specialize (Hno v Hin).
  assert (has_alias table k v = true) by (apply has_alias_true; eauto).
  congruence.
Qed.

End Levels.

(** The table of Python's logging module keeps the longer of WARN and
    WARNING. *)
Lemma LOGLEVELS_value :
  LOGLEVELS = ["CRITICAL"; "DEBUG"; "ERROR"; "FATAL"; "INFO"; "NOTSET"; "WARNING"]%string.
Proof. reflexivity. Qed.

Lemma sorted_LOGLEVELS : StronglySorted leb_string LOGLEVELS.
Proof.
  rewrite LOGLEVELS_value.
  repeat (constructor; [|repeat (constructor; [reflexivity|]); constructor]).
  constructor.
Qed.

(** Membership of a pair in a literal table, case by case. *)
Ltac table_cases H :=
  repeat (apply elem_of_cons in H as [H|H]; [simplify_eq|]);
  try (by apply elem_of_nil in H).

Lemma find_first {A} (p : A → bool) (l : list A) (x : A) :
  List.find p l = Some x ↔
  ∃ l1 l2, l = l1 ++ x :: l2 ∧ p x = true ∧ ∀ y, y ∈ l1 → p y = false.
Proof.
  induction l as [|a l IH]; simpl.
  - split; [done|]. intros (l1 & l2 & H & _). by destruct l1.
  - destruct (p a) eqn:E.
    + split.
      * intros [= ->]. exists [], l. split; [done|]. split; [done|].
        intros y Hy. by apply elem_of_nil in Hy.
      * intros (l1 & l2 & H & Hx & Hl1). destruct l1 as [|b l1].
        -- simpl in H. by injection H as ->.
        -- injection H as <- _. rewrite (Hl1 a) in E; [done | by left].
    + rewrite IH. split.
      * intros (l1 & l2 & -> & Hx & Hl1). exists (a :: l1), l2.
        split; [done|]. split; [done|]. intros y Hy.
        apply elem_of_cons in Hy as [->|Hy]; auto.
      * intros (l1 & l2 & H & Hx & Hl1). destruct l1 as [|b l1].
        -- simpl in H. injection H as -> _. congruence.
        -- injection H as -> ->. exists l1, l2. split; [done|].
           split; [done|]. intros y Hy. apply Hl1. by right.
Qed.

Lemma find_none_iff {A} (p : A → bool) (l : list A) :
  List.find p l = None ↔ ∀ y, y ∈ l → p y = false.
Proof.
  induction l as [|a l IH]; simpl.
  - split; [|done]. intros _ y Hy. by apply elem_of_nil in Hy.
  - destruct (p a) eqn:E.
    + split; [done|]. intros H. rewrite (H a) in E; [done | by left].
    + rewrite IH. split.
      * intros H y Hy. apply elem_of_cons in Hy as [->|Hy]; auto.
      * intros H y Hy. apply H. by right.
Qed.

Lemma partition_cut comment before rest :
  cut_at_colon comment before rest →
  ∃ sep, partition ":" comment = (before, sep, rest).
Proof.
  intros [[-> Hno] | (Hno & -> & ->)].
  - induction before as [|c b IH].
    + by eexists.
    + cbn [has_char] in Hno. apply orb_false_iff in Hno as [Hc Hb].
      change (String c b +:+ ":" +:+ rest) with (String c (b +:+ ":" +:+ rest)).
      cbn [partition]. rewrite Ascii.eqb_sym, Hc.
      destruct (IH Hb) as [sep ->]. by eexists.
  - induction comment as [|c b IH].
    + by eexists.
    + cbn [has_char] in Hno. apply orb_false_iff in Hno as [Hc Hb].
      cbn [partition]. rewrite Ascii.eqb_sym, Hc.
      destruct (IH Hb) as [sep ->]. by eexists.
Qed.

(** C8, as stated, fails: of WARN and WARNING, both of rank 30, the table
    keeps WARNING, the longer name. *)
Lemma collapsed_to_shortest_fails :
  ¬ collapsed_to_shortest _nameToLevel LOGLEVELS.
Proof.
  intros H. destruct (H "WARN" "WARNING" 30) as [Hin _].
  - compute_done.
  - compute_done.
  - split; [reflexivity | discriminate].
  - revert Hin. compute_done.
Qed.

(** C8, amended: the canonical level set has no two names of equal rank
    where one is a proper beginning of the other; of each such pair of the
    logging table the shorter name is dropped and the longer one kept; the
    names kept are exactly those no other name of their rank starts with. *)
Theorem canonical_levels_keep_longest :
  prefix_free _nameToLevel LOGLEVELS ∧
  (∀ k k' v, (k, v) ∈ _nameToLevel → (k', v) ∈ _nameToLevel →
             strict_prefix k k' → k' ∈ LOGLEVELS ∧ k ∉ LOGLEVELS) ∧
  (∀ k, k ∈ LOGLEVELS ↔
        ∃ v, (k, v) ∈ _nameToLevel ∧
             ∀ v', (k, v') ∈ _nameToLevel →
                   ¬ ∃ k', (k', v') ∈ _nameToLevel ∧ strict_prefix k k').
Proof.
  split; [apply levels_of_prefix_free|]. split.
  - intros k k' v Hk Hk' Hp. split.
    + destruct Hp as [Hp Hne].
      table_cases Hk; table_cases Hk'; try discriminate; try done;
        compute_done.
    + by eapply levels_of_drops_shorter.
  - intros k. unfold LOGLEVELS. rewrite elem_of_levels_of.
    split; intros (v & Hin & Hno); exists v; (split; [done|]); intros v' Hv'.
    + rewrite <- has_alias_true. rewrite (Hno v' Hv'). done.
    + apply not_true_is_false. rewrite has_alias_true. by apply Hno.
Qed.

Lemma canonical_levels_keep_longest_witness :
  "WARNING"%string ∈ LOGLEVELS ∧ "WARN"%string ∉ LOGLEVELS.
Proof.
  apply (proj1 (proj2 canonical_levels_keep_longest) "WARN"%string "WARNING"%string 30).
  - compute_done.
  - compute_done.
  - split; [reflexivity | discriminate].
Defined.

(** C9: a canonical name resolves to itself, in any case of its letters;
    the resolver returns the first name, in the sorted order of the set,
    that starts with the upper-cased text, and fails when there is none. *)
Theorem resolveLevel_canonical :
  (∀ L, L ∈ LOGLEVELS →
        resolveLevel L = Some L ∧ resolveLevel (lower L) = Some L ∧
        ∀ s, upper s = L → resolveLevel s = Some L) ∧
  StronglySorted leb_string LOGLEVELS ∧
  (∀ p L, resolveLevel p = Some L ↔
          ∃ l1 l2, LOGLEVELS = l1 ++ L :: l2 ∧
                   startswith L (upper p) = true ∧
                   ∀ x, x ∈ l1 → startswith x (upper p) = false) ∧
  (∀ p, resolveLevel p = None ↔
        ∀ x, x ∈ LOGLEVELS → startswith x (upper p) = false).
Proof.
  split; [|split; [apply sorted_LOGLEVELS | split]].
  - intros L HL. rewrite LOGLEVELS_value in HL.
    repeat (apply elem_of_cons in HL as [->|HL]);
      [..|by apply elem_of_nil in HL];
      (split; [reflexivity | split; [reflexivity|]]);
      intros s Hs; unfold resolveLevel; rewrite Hs; reflexivity.
  - intros p L. apply (find_first (λ L, startswith L (upper p))).
  - intros p. apply (find_none_iff (λ L, startswith L (upper p))).
Qed.

Lemma resolveLevel_canonical_witness :
  resolveLevel "warning" = Some "WARNING"%string.
Proof.
  apply (proj1 resolveLevel_canonical "WARNING"%string).
  - compute_done.
  - reflexivity.
Defined.

(** C5, as stated, fails: a comment without a colon is its own candidate
    prefix, which may resolve. *)
Lemma parseComment_no_colon_resolves :
  has_char ":" "error" = false ∧
  parseComment "error" = ("ERROR"%string, EmptyString) ∧
  parseComment "error" ≠ (INFO, "error"%string).
Proof. repeat split; discriminate. Qed.

(** C5, amended: the classifier cuts the comment at its first colon, the
    candidate prefix being the whole comment when there is no colon.  If the
    stripped prefix is empty, or resolves to no canonical level, the result
    is INFO with the full comment; if it resolves, the result is the level
    with the stripped text after the colon. *)
Theorem parseComment_cut comment before rest :
  cut_at_colon comment before rest →
  parseComment comment =
    if String.eqb (strip before) EmptyString then (INFO, comment)
    else match resolveLevel (strip before) with
         | Some L => (L, strip rest)
         | None => (INFO, comment)
         end.
Proof.
  intros H. destruct (partition_cut _ _ _ H) as [sep Hp].
  unfold parseComment. by rewrite Hp.
Qed.

Lemma parseComment_cut_witness :
  parseComment "warn: disk low" = ("WARNING"%string, "disk low"%string).
Proof.
  rewrite (parseComment_cut "warn: disk low" "warn" " disk low").
  - reflexivity.
  - left. split; reflexivity.
Defined.

(** The examples of the classifier. *)
Example parseComment_note : parseComment "just a note" = (INFO, "just a note"%string).
Proof. reflexivity. Qed.

Example parseComment_bogus : parseComment "bogus: text" = (INFO, "bogus: text"%string).
Proof. reflexivity. Qed.

Example parseComment_colon_first : parseComment ": text" = (INFO, ": text"%string).
Proof. reflexivity. Qed.

(** ** Strings: runs of characters and stripping *)

Lemma append_String c (a b : string) : String c a +:+ b = String c (a +:+ b).
Proof. reflexivity. Qed.

Lemma append_nil_l (a : string) : EmptyString +:+ a = a.
Proof. reflexivity. Qed.

Lemma append_assoc (a b c : string) : (a +:+ b) +:+ c = a +:+ (b +:+ c).
Proof. induction a as [|x a IH]; [done|]. by rewrite !append_String, IH. Qed.

Lemma append_nil_r (a : string) : a +:+ EmptyString = a.
Proof. induction a as [|x a IH]; [done|]. by rewrite append_String, IH. Qed.

Lemma rev_onto_append (s acc : string) : rev_onto s acc = rev s +:+ acc.
Proof.
  unfold rev. revert acc. induction s as [|c s IH]; intros acc; [done|].
  cbn [rev_onto]. rewrite (IH (String c acc)), (IH (String c EmptyString)).
  by rewrite append_assoc.
Qed.

Lemma rev_String c (s : string) : rev (String c s) = rev s +:+ String c EmptyString.
Proof. unfold rev at 1. cbn [rev_onto]. apply rev_onto_append. Qed.

Lemma rev_append (a b : string) : rev (a +:+ b) = rev b +:+ rev a.
Proof.
  induction a as [|c a IH].
  - by rewrite append_nil_r.
  - by rewrite append_String, !rev_String, IH, append_assoc.
Qed.

Lemma drop_while_snoc p (a : string) c :
  p c = false →
  drop_while p (a +:+ String c EmptyString) = drop_while p a +:+ String c EmptyString.
Proof.
  intros Hc. induction a as [|x a IH].
  - simpl. by rewrite Hc.
  - rewrite append_String. cbn [drop_while]. by destruct (p x).
Qed.

(** Stripping on the right keeps a first character that is not a space. *)
Lemma rstrip_String c (s : string) :
  is_space c = false → ∃ t, rstrip (String c s) = String c t.
Proof.
  intros Hc. unfold rstrip. rewrite rev_String, drop_while_snoc by done.
  rewrite rev_append. by eexists.
Qed.

Lemma drop_while_head p (s : string) c r :
  drop_while p s = String c r → p c = false.
Proof.
  induction s as [|x s IH]; [done|]. cbn [drop_while].
  destruct (p x) eqn:E; [done|]. by intros [= <- _].
Qed.

Lemma strip_head (s : string) c r :
  strip s = String c r → ∃ r', lstrip s = String c r' ∧ is_space c = false.
Proof.
  unfold strip. destruct (lstrip s) as [|d r'] eqn:E; [done|].
  assert (is_space d = false) as Hd by (by eapply drop_while_head).
  destruct (rstrip_String d r' Hd) as [t ->]. intros [= -> _]. eauto.
Qed.

Lemma strip_of_head (s : string) c r :
  lstrip s = String c r → ∃ t, strip s = String c t.
Proof.
  intros E. unfold strip. rewrite E. apply rstrip_String.
  by eapply drop_while_head.
Qed.

(** The text before the first hash of a line whose first character after
    the leading spaces is an at sign still starts, stripped, with it. *)
Lemma lstrip_split_first (line : string) r :
  lstrip line = String "@" r →
  ∃ r', lstrip (split_first "#" line) = String "@" r'.
Proof.
  unfold lstrip, split_first. induction line as [|c s IH]; [done|].
  cbn [drop_while take_while]. destruct (is_space c) eqn:Esp.
  - intros H. destruct (IH H) as [r' Hr'].
    destruct (negb (Ascii.eqb c "#")) eqn:Eh.
    + cbn [drop_while]. rewrite Esp. eauto.
    + apply negb_false_iff, Ascii.eqb_eq in Eh. by subst c.
  - intros [= -> ->]. cbn. eauto.
Qed.

Lemma has_char_head c (s : string) : has_char c (String c s) = true.
Proof. cbn [has_char]. by rewrite Ascii.eqb_refl. Qed.

Lemma at_in_preComment (line : string) r :
  strip line = String "@" r →
  has_char "@" (strip (split_first "#" line)) = true.
Proof.
  intros H. apply strip_head in H as (r' & H & _).
  apply lstrip_split_first in H as [r'' H].
  apply strip_of_head in H as [t ->]. apply has_char_head.
Qed.

Lemma startswith_at (s : string) :
  startswith s "@" = true → ∃ r, s = String "@" r.
Proof.
  unfold startswith. destruct s as [|c r]; [done|]. cbn [String.prefix].
  destruct (ascii_dec "@" c) as [<-|]; [eauto | done].
Qed.


Lemma after_hash_is_Some (line : string) :
  is_Some (after_hash line) ↔ has_char "#" line = true.
Proof.
  induction line as [|c s IH]; cbn [after_hash has_char].
  - split; [by intros [? ?] | done].
  - rewrite (Ascii.eqb_sym "#" c). destruct (Ascii.eqb c "#"); [|done].
    split; [done | by eexists].
Qed.

Lemma comment_match_is_Some (line : string) :
  is_Some (comment_match line) ↔ has_char "#" line = true.
Proof.
  rewrite <- after_hash_is_Some. unfold comment_match.
  destruct (after_hash line); split; intros [? ?]; by eexists.
Qed.

Lemma take_while_all p (a b : string) :
  all_chars p a = true → take_while p (a +:+ b) = a +:+ take_while p b.
Proof.
  induction a as [|c a IH]; [done|]. cbn [all_chars]. intros H.
  apply andb_true_iff in H as [Hc Ha]. rewrite append_String.
  cbn [take_while]. by rewrite Hc, IH.
Qed.



(** ** The loop of the rewriter *)

Section Loop.

Context {parser : Parser}.

(** The projections of the locals. *)
Lemma locals_of_fields src :
  sourceCode (locals_of src) = src ∧
  decoratedFunctions (locals_of src) = (extractLoggerInfo src).2 ∧
  importsLogging (locals_of src) = contains import_logging src ∧
  lineToFunction (locals_of src) = lineToFunction_of src ∧
  loggerName (locals_of src) =
    (if otruthy (extractLoggerInfo src).1
     then default EmptyString (extractLoggerInfo src).1
     else "logger"%string).
Proof. unfold locals_of. by destruct (extractLoggerInfo _). Qed.

Lemma import_here_code_line i line :
  import_here i line = code_line line && (0 <? i)%nat.
Proof. reflexivity. Qed.

Lemma loop_body_out L i line st :
  newLines (loop_body L i line st) =
    newLines st ++ (if imports_now L i line st then bootstrap else [])
                ++ emit L i line ∧
  addedImports (loop_body L i line st) =
    addedImports st || imports_now L i line st.
Proof.
  unfold loop_body, emit, imports_now.
  destruct (negb (addedImports st) && negb (importsLogging L) && import_here i line);
    destruct (shouldSkipDecoratorLine line (sourceCode L));
    destruct (injection L i line); cbn [newLines addedImports];
    rewrite ?orb_true_r, ?orb_false_r, <- ?app_assoc, ?app_nil_r; done.
Qed.

Lemma emits_app L i l1 l2 :
  emits L i (l1 ++ l2) = emits L i l1 ++ emits L (i + length l1) l2.
Proof.
  revert i. induction l1 as [|a l1 IH]; intros i; simpl.
  - by rewrite Nat.add_0_r.
  - replace (i + S (length l1))%nat with (S i + length l1)%nat by lia.
    by rewrite IH, app_assoc.
Qed.

(** Once the import is in, or not wanted, the loop only emits. *)
Lemma loop_settled L i lines st :
  addedImports st || importsLogging L = true →
  newLines (loop L i lines st) = newLines st ++ emits L i lines.
Proof.
  revert i st. induction lines as [|line rest IH]; intros i st Hs; simpl.
  - by rewrite app_nil_r.
  - destruct (loop_body_out L i line st) as [Hn Ha].
    assert (imports_now L i line st = false) as Hno.
    { unfold imports_now. apply orb_true_iff in Hs as [->| ->]; simpl; [done|].
      by rewrite andb_false_r. }
    rewrite Hno in Hn, Ha. rewrite IH.
    + rewrite Hn. simpl. by rewrite <- app_assoc.
    + by rewrite Ha, orb_false_r.
Qed.

(** Past the first line, a loop still looking for its place puts the
    import before the first code line left. *)
Lemma loop_looking L i lines st :
  (0 < i)%nat → addedImports st = false → importsLogging L = false →
  newLines (loop L i lines st) =
    newLines st ++
    match list_find (λ l, code_line l = true) lines with
    | Some (j, _) =>
        emits L i (take j lines) ++ bootstrap ++ emits L (i + j) (drop j lines)
    | None => emits L i lines
    end.
Proof.
  revert i st. induction lines as [|line rest IH]; intros i st Hi Ha HL.
  - simpl. by rewrite app_nil_r.
  - cbn [loop list_find].
    destruct (loop_body_out L i line st) as [Hn Hb].
    assert (imports_now L i line st = code_line line) as Hnow.
    { unfold imports_now. rewrite Ha, HL, import_here_code_line. simpl.
      apply Nat.ltb_lt in Hi. by rewrite Hi, andb_true_r. }
    rewrite Hnow in Hn, Hb. case_decide as Hc.
    + rewrite Hc in Hn, Hb. rewrite loop_settled; [|by rewrite Hb, orb_true_r].
      rewrite Hn. cbn [take drop emits]. rewrite Nat.add_0_r.
      cbn [app]. by rewrite <- !app_assoc.
    + apply not_true_is_false in Hc. rewrite Hc in Hn, Hb.
      rewrite IH; [|lia|by rewrite Hb, Ha|done]. rewrite Hn.
      destruct (list_find _ rest) as [[j x]|]; cbn [fmap option_fmap option_map prod_map fst snd id].
      * cbn [take drop emits app]. rewrite <- !app_assoc.
        by replace (i + S j)%nat with (S i + j)%nat by lia.
      * cbn [emits app]. by rewrite <- !app_assoc.
Qed.

(** The output: the lines emitted, with the import put in, where one is
    put in, before the first code line after the file's first line. *)
Lemma rewrite_emits src :
  let L := locals_of src in
  let lines := splitlines src in
  rewrite src =
    match (if contains import_logging src then None
           else list_find (λ l, code_line l = true) (tail lines)) with
    | Some (j, _) =>
        emits L 0 (take (S j) lines) ++ bootstrap ++ emits L (S j) (drop (S j) lines)
    | None => emits L 0 lines
    end.
Proof.
  intros L lines. unfold rewrite. fold L lines.
  destruct (locals_of_fields src) as (_ & _ & HI & _). fold L in HI.
  destruct (contains import_logging src) eqn:E.
  - rewrite loop_settled; [done | by rewrite HI, orb_true_r].
  - destruct lines as [|l0 rest]; [done|].
    cbn [loop tail].
    destruct (loop_body_out L 0 l0 {| newLines := []; addedImports := false |})
      as [Hn Hb].
    assert (imports_now L 0 l0 {| newLines := []; addedImports := false |} = false)
      as Hnow.
    { unfold imports_now. rewrite import_here_code_line. simpl.
      by rewrite !andb_false_r. }
    rewrite Hnow in Hn, Hb. simpl in Hn, Hb.
    rewrite loop_looking; [|lia|done|done]. rewrite Hn.
    destruct (list_find _ rest) as [[j x]|];
      cbn [take drop emits]; by rewrite <- ?app_assoc.
Qed.

(** The shape of the output with the place of the import left open. *)
Lemma rewrite_split src :
  ∃ pre post (b : bool),
    splitlines src = pre ++ post ∧
    rewrite src = emits (locals_of src) 0 pre
                    ++ (if b then bootstrap else [])
                    ++ emits (locals_of src) (length pre) post ∧
    (b = true → contains import_logging src = false ∧ src ≠ EmptyString).
Proof.
  pose proof (rewrite_emits src) as H. cbv zeta in H.
  destruct (contains import_logging src) eqn:E.
  - exists (splitlines src), [], false. rewrite app_nil_r. simpl.
    rewrite app_nil_r. done.
  - destruct (list_find _ (tail (splitlines src))) as [[j x]|] eqn:F.
    + exists (take (S j) (splitlines src)), (drop (S j) (splitlines src)), true.
      rewrite take_drop. split; [done|].
      apply list_find_Some in F as (Hj & _).
      assert (S j < length (splitlines src))%nat as Hlen.
      { apply lookup_lt_Some in Hj. destruct (splitlines src); simpl in *; lia. }
      rewrite length_take, Nat.min_l by lia. split; [done|].
      intros _. split; [done|]. intros ->. simpl in Hlen. lia.
    + exists (splitlines src), [], false. rewrite app_nil_r. simpl.
      rewrite app_nil_r. done.
Qed.

Lemma kept_app src l1 l2 : kept src (l1 ++ l2) = kept src l1 ++ kept src l2.
Proof. apply List.filter_app. Qed.

(** The lines emitted hold the kept lines, in order. *)
Lemma kept_sublist_emits L i lines :
  kept (sourceCode L) lines `sublist_of` emits L i lines.
Proof.
  revert i. induction lines as [|line rest IH]; intros i; simpl; [done|].
  unfold emit.
  destruct (shouldSkipDecoratorLine line (sourceCode L)); simpl; [done|].
  destruct (injection L i line); simpl.
  - apply sublist_cons, sublist_skip, IH.
  - apply sublist_skip, IH.
Qed.

(** Without injections the lines emitted are the kept lines. *)
Lemma emits_kept L i lines :
  (∀ j line, injection L j line = None) →
  emits L i lines = kept (sourceCode L) lines.
Proof.
  intros Hno. revert i. induction lines as [|line rest IH]; intros i; simpl; [done|].
  unfold emit. rewrite Hno, IH.
  by destruct (shouldSkipDecoratorLine line (sourceCode L)).
Qed.

End Loop.

(** ** The analysis *)

Section Analysis.

Context {parser : Parser}.

Lemma shouldSkip_at line src :
  shouldSkipDecoratorLine line src = true → ∃ r, strip line = String "@" r.
Proof.
  unfold shouldSkipDecoratorLine.
  destruct (startswith (strip line) "@") eqn:E; [|done].
  intros _. by apply startswith_at.
Qed.

Lemma member_true (o : option string) (s : gset string) :
  member o s = true ↔ ∃ f, o = Some f ∧ f ∈ s.
Proof.
  destruct o as [f|]; simpl.
  - rewrite bool_decide_eq_true. split; [eauto|]. by intros (? & [= <-] & ?).
  - split; [done|]. by intros (? & ? & _).
Qed.

Lemma injection_is_Some L i line :
  is_Some (injection L i line) ↔
  has_char "#" line = true ∧
  strip (split_first "#" line) ≠ EmptyString ∧
  has_char "@" (strip (split_first "#" line)) = false ∧
  ∃ f, lineToFunction L !! (Z.of_nat i + 1) = Some f ∧
       f ∈ decoratedFunctions L.
Proof.
  rewrite <- comment_match_is_Some, <- member_true. unfold injection.
  destruct (comment_match line) as [g|].
  - unfold truthy. rewrite <- String.eqb_neq, <- negb_true_iff.
    rewrite <- (negb_true_iff (has_char _ _)).
    destruct (negb (_ =? _)%string), (member _ _), (negb (has_char _ _));
      simpl; try destruct (parseComment _); split;
      try (by intros [? ?]); try (by intros (_ & ? & ? & ?)); 
      try (by eexists); by intros _; split; [eexists|].
  - split; [by intros [? ?] | by intros ([? ?] & _)].
Qed.

Lemma emit_injects L i line :
  (∃ stmt, emit L i line = [stmt; line]) ↔
  shouldSkipDecoratorLine line (sourceCode L) = false ∧
  is_Some (injection L i line).
Proof.
  unfold emit. destruct (shouldSkipDecoratorLine _ _).
  - split; [by intros [? ?] | by intros [? _]].
  - destruct (injection L i line) as [s|].
    + split; [by intros _; split; [|eexists] | by intros _; eexists].
    + split; [by intros [? ?] | by intros [_ [? ?]]].
Qed.

(** A line the decorator filter skips would not have been injected at
    anyway: its code holds an at sign. *)
Lemma skipped_has_at line src :
  shouldSkipDecoratorLine line src = true →
  has_char "@" (strip (split_first "#" line)) = true.
Proof. intros [r H]%shouldSkip_at. by eapply at_in_preComment. Qed.

(** *** Where the source does not parse *)

Lemma unparsed_skips_nothing src line :
  ast_parse src = None → shouldSkipDecoratorLine line src = false.
Proof.
  intros H. unfold shouldSkipDecoratorLine. rewrite H.
  destruct (negb _); [done|]. by destruct (decorator_match _).
Qed.

Lemma kept_all src lines :
  (∀ line, shouldSkipDecoratorLine line src = false) → kept src lines = lines.
Proof.
  intros H. unfold kept. induction lines as [|l ls IH]; simpl; [done|].
  by rewrite H, IH.
Qed.

Lemma no_functions_no_injection L i line :
  decoratedFunctions L = ∅ → injection L i line = None.
Proof.
  intros H. apply eq_None_not_Some. rewrite injection_is_Some.
  intros (_ & _ & _ & f & _ & Hf). rewrite H in Hf. by apply not_elem_of_empty in Hf.
Qed.

(** *** The instrumented definitions *)

Lemma run_markers_nil st : run_markers [] st = st.
Proof.
  unfold run_markers. destruct st as [o s]. simpl. f_equal.
  apply (left_id_L ∅ (∪)).
Qed.

Lemma run_markers_app a b st :
  run_markers (a ++ b) st = run_markers b (run_markers a st).
Proof.
  unfold run_markers. simpl. f_equal.
  - destruct b as [|x b _] using rev_ind.
    + by rewrite app_nil_r.
    + by rewrite app_assoc, !last_snoc.
  - rewrite fmap_app, list_to_set_app_L.
    rewrite (comm_L (∪) (list_to_set a.*1)). by rewrite (assoc_L (∪)).
Qed.

Lemma run_markers_one name id st :
  run_markers [(name, id)] st = (Some id, {[name]} ∪ st.2).
Proof.
  unfold run_markers. simpl. f_equal. by rewrite (right_id_L ∅ (∪)).
Qed.

Lemma fold_visit_node_markers cl tree st :
  fold_left (visit_node cl) tree st = run_markers (tree ≫= markers_of cl) st.
Proof.
  revert st. induction tree as [|n tree IH]; intros st.
  - by rewrite run_markers_nil.
  - cbn [fold_left]. rewrite IH, bind_cons, run_markers_app. f_equal.
    unfold visit_node, markers_of.
    destruct (as_def n) as [[[[name l] e] ds]|]; [|by rewrite run_markers_nil].
    clear. revert st. induction ds as [|d ds IH]; intros st.
    + by rewrite run_markers_nil.
    + cbn [fold_left omap list_omap]. rewrite IH. clear IH.
      destruct d as [| |func args|]; try done.
      unfold visit_decorator.
      destruct (is_marker cl func); [|done].
      destruct args as [|[id| | |] args]; try done.
      cbn [bare_first_arg fmap option_fmap option_map].
      change ((name, id) :: ?l) with ([(name, id)] ++ l).
      by rewrite run_markers_app, run_markers_one.
Qed.

Lemma extractLoggerInfo_instrumented src :
  extractLoggerInfo src =
    (snd <$> last (instrumented src), list_to_set (instrumented src).*1).
Proof.
  unfold extractLoggerInfo, instrumented. destruct (ast_parse src) as [tree|].
  - rewrite fold_visit_node_markers. unfold run_markers. simpl. f_equal.
    + by destruct (last _) as [[? ?]|].
    + by rewrite (right_id_L ∅ (∪)).
  - done.
Qed.

Lemma elem_of_markers_of cl n name id :
  (name, id) ∈ markers_of cl n →
  ∃ l e ds func args,
    as_def n = Some (name, l, e, ds) ∧ Call func args ∈ ds ∧
    is_marker cl func = true ∧ bare_first_arg args = Some id.
Proof.
  unfold markers_of. destruct (as_def n) as [[[[name' l] e] ds]|].
  - rewrite list_elem_of_omap. intros (d & Hd & H).
    destruct d as [| |func args|]; try done.
    destruct (is_marker cl func) eqn:E; [|done].
    destruct (bare_first_arg args) as [id'|] eqn:F; [|done].
    injection H as <- <-. by exists l, e, ds, func, args.
  - by intros ?%elem_of_nil.
Qed.

(** *** The names bound to commentlogger *)




End Analysis.

Lemma length_append (a b : string) :
  String.length (a +:+ b) = (String.length a + String.length b)%nat.
Proof. induction a as [|c a IH]; [done|]. simpl. by rewrite IH. Qed.

Section Claims.

Context {parser : Parser}.

Lemma emits_unparsed src i lines :
  ast_parse src = None → emits (locals_of src) i lines = lines.
Proof.
  intros H. destruct (locals_of_fields src) as (HS & HD & _).
  rewrite emits_kept.
  - rewrite HS. apply kept_all. intros line. by apply unparsed_skips_nothing.
  - intros j line. apply no_functions_no_injection.
    rewrite HD. unfold extractLoggerInfo. by rewrite H.
Qed.

(** C1, amended: every original line that the decorator filter does not
    skip appears in the output, in the original order and unchanged; the
    output is made of what each line emits, with the import bootstrap put
    in at most once; at a line the filter skips (a marker decorator) the
    loop appends neither the line nor a statement, so the line is dropped
    and generates no injection; at any other line it appends the line,
    after the injected statement if there is one. *)
Theorem kept_lines_preserved src :
  let L := locals_of src in
  kept src (splitlines src) `sublist_of` rewrite src ∧
  (∃ pre post (b : bool),
      splitlines src = pre ++ post ∧
      rewrite src = emits L 0 pre ++ (if b then bootstrap else [])
                                  ++ emits L (length pre) post) ∧
  (∀ i line st,
      shouldSkipDecoratorLine line src = true →
      newLines (loop_body L i line st) =
        newLines st ++ (if imports_now L i line st then bootstrap else [])) ∧
  (∀ i line st,
      shouldSkipDecoratorLine line src = false →
      newLines (loop_body L i line st) =
        newLines st ++ (if imports_now L i line st then bootstrap else [])
                    ++ option_list (injection L i line) ++ [line]).
Proof.
  intros L. destruct (locals_of_fields src) as (HS & _). fold L in HS.
  destruct (rewrite_split src) as (pre & post & b & Hl & Hr & _). fold L in Hr.
  split; [|split; [by exists pre, post, b | split]].
  - rewrite Hl, Hr, kept_app, <- HS.
    apply sublist_app; [apply kept_sublist_emits|].
    apply sublist_inserts_l, kept_sublist_emits.
  - intros i line st H. rewrite (proj1 (loop_body_out L i line st)).
    unfold emit. by rewrite HS, H, app_nil_r.
  - intros i line st H. rewrite (proj1 (loop_body_out L i line st)).
    unfold emit. rewrite HS, H. by destruct (injection L i line).
Qed.

(** C2, amended: a statement is injected before a line exactly when the
    line holds a hash, the stripped text before the first hash is not
    empty and holds no at sign, and the line-to-function map gives the
    line's 1-based number a function of the instrumented set. *)
Theorem injection_condition src i line st :
  let L := locals_of src in
  (∃ stmt, newLines (loop_body L i line st) =
             newLines st ++ (if imports_now L i line st then bootstrap else [])
                         ++ [stmt; line]) ↔
  has_char "#" line = true ∧
  strip (split_first "#" line) ≠ EmptyString ∧
  has_char "@" (strip (split_first "#" line)) = false ∧
  ∃ f, lineToFunction_of src !! (Z.of_nat i + 1) = Some f ∧
       f ∈ (extractLoggerInfo src).2.
Proof.
  intros L. destruct (locals_of_fields src) as (HS & HD & _ & HF & _).
  fold L in HS, HD, HF. rewrite (proj1 (loop_body_out L i line st)).
  setoid_rewrite (inj_iff (app (newLines st))).
  setoid_rewrite (inj_iff (app (if imports_now L i line st then bootstrap else []))).
  rewrite <- HD, <- HF, <- injection_is_Some, emit_injects, HS. split; [tauto|].
  intros H. split; [|done]. apply injection_is_Some in H as (_ & _ & Hat & _).
  apply not_true_is_false. intros Hs%skipped_has_at. congruence.
Qed.

(** C3, amended: with no instrumented function the lines of the output
    are the lines of the input that the decorator filter keeps, in order
    and unchanged, with the import bootstrap put in at most once, and only
    if the source does not hold the text of the import and is not empty. *)
Theorem uninstrumented_preserved src :
  (extractLoggerInfo src).2 = ∅ →
  ∃ pre post (b : bool),
    splitlines src = pre ++ post ∧
    rewrite src = kept src pre ++ (if b then bootstrap else []) ++ kept src post ∧
    (b = true → contains import_logging src = false ∧ src ≠ EmptyString).
Proof.
  intros H. destruct (locals_of_fields src) as (HS & HD & _).
  destruct (rewrite_split src) as (pre & post & b & Hl & Hr & Hb).
  exists pre, post, b. split; [done|]. split; [|done].
  rewrite Hr, !emits_kept, HS; [done|..];
    intros j line; apply no_functions_no_injection; congruence.
Qed.

(** C4, amended: the import bootstrap, the import line and an empty line,
    is put in at most once, immediately before what the first code line
    after the file's first line emits (a code line being one that is not
    blank, not a comment and not the opening of a docstring), and only if
    the source does not hold the text of the import; this does not depend
    on any injection. *)
Theorem import_bootstrap_place src :
  let L := locals_of src in
  let lines := splitlines src in
  (contains import_logging src = true → rewrite src = emits L 0 lines) ∧
  (contains import_logging src = false →
   (∀ j x, tail lines !! j = Some x → code_line x = true →
           (∀ k y, tail lines !! k = Some y → (k < j)%nat → code_line y = false) →
           rewrite src = emits L 0 (take (S j) lines) ++ bootstrap
                           ++ emits L (S j) (drop (S j) lines)) ∧
   ((∀ x, x ∈ tail lines → code_line x = false) →
    rewrite src = emits L 0 lines)).
Proof.
  intros L lines. pose proof (rewrite_emits src) as H. cbv zeta in H.
  fold L lines in H. split; [by intros E; rewrite E in H|].
  intros E. rewrite E in H. split.
  - intros j x Hj Hx Hmin.
    assert (list_find (λ l, code_line l = true) (tail lines) = Some (j, x)) as F.
    { apply list_find_Some. split; [done|]. split; [done|].
      intros k y Hk Hlt. rewrite (Hmin k y Hk Hlt). done. }
    by rewrite F in H.
  - intros Hno.
    assert (list_find (λ l, code_line l = true) (tail lines) = None) as F.
    { apply list_find_None, Forall_forall. intros x Hx. by rewrite (Hno x Hx). }
    by rewrite F in H.
Qed.

(** C6: the logger named in every injected statement is one name for the
    file: the first argument, a bare identifier, of the last instrumenting
    decorator met in the walk, and the fallback [logger] when the walk
    meets none.  An injected statement is, letter for letter, the line's
    indentation, that name, a dot, the lower-cased level, and the message
    between an open bracket with a double quote and a double quote with a
    close bracket, level and message being those of the classifier. *)
Theorem logger_name_last_wins src :
  let L := locals_of src in
  (instrumented src = [] → loggerName L = "logger"%string) ∧
  (∀ f id, last (instrumented src) = Some (f, id) → id ≠ EmptyString →
           loggerName L = id) ∧
  decoratedFunctions L = list_to_set (instrumented src).*1 ∧
  (∀ i line stmt, injection L i line = Some stmt →
     ∃ comment logLevel logMessage,
       parseComment comment = (logLevel, logMessage) ∧
       stmt = indent_match line +:+ loggerName L +:+ "." +:+ lower logLevel
                +:+ "(" +:+ dquote +:+ logMessage +:+ dquote +:+ ")").
Proof.
  intros L. destruct (locals_of_fields src) as (_ & HD & _ & _ & HN).
  fold L in HD, HN. rewrite extractLoggerInfo_instrumented in HD, HN.
  simpl in HD, HN. repeat split.
  - intros E. by rewrite HN, E.
  - intros f id E Hid. rewrite HN, E. simpl. unfold truthy.
    apply String.eqb_neq in Hid. by rewrite Hid.
  - done.
  - intros i line stmt. unfold injection.
    destruct (comment_match line) as [g|]; [|done].
    destruct (_ && _ && _); [|done].
    destruct (parseComment (strip g)) as [lvl msg] eqn:E. intros [= <-].
    by exists (strip g), lvl, msg.
Qed.

(** C7: where the source does not parse, the analysis gives no logger
    name, no instrumented function and an empty line-to-function map; the
    rewrite still produces its output: at every line the loop appends the
    line and no statement, and the output is the input lines with at most
    the import bootstrap. *)
Theorem unparsed_degrades src :
  ast_parse src = None →
  extractLoggerInfo src = (None, ∅) ∧
  lineToFunction_of src = ∅ ∧
  (∀ i line st,
      newLines (loop_body (locals_of src) i line st) =
        newLines st
          ++ (if imports_now (locals_of src) i line st then bootstrap else [])
          ++ [line]) ∧
  ∃ pre post (b : bool),
    splitlines src = pre ++ post ∧
    rewrite src = pre ++ (if b then bootstrap else []) ++ post ∧
    injectLogging src = join nl (pre ++ (if b then bootstrap else []) ++ post).
Proof.
  intros H. split; [by unfold extractLoggerInfo; rewrite H|].
  split; [by unfold lineToFunction_of; rewrite H|]. split.
  - intros i line st. rewrite (proj1 (loop_body_out _ i line st)).
    pose proof (emits_unparsed src i [line] H) as E.
    simpl in E. rewrite app_nil_r in E. by rewrite E.
  - destruct (rewrite_split src) as (pre & post & b & Hl & Hr & _).
    rewrite !emits_unparsed in Hr by done. exists pre, post, b.
    unfold injectLogging. by rewrite Hr.
Qed.


End Claims.

(** ** The claims on the example sources *)

Section Instances.

Import Examples.
#[local] Existing Instance Examples.parser.

(** The rewriter on an instrumented function: a statement before each
    line of the body that holds a hash after code, the decorator line
    gone. *)
Example rewrite_src_inst :
  rewrite src_inst =
    ["from commentlogger import logcomments"%string;
     "import logging"%string;
     "def f():"%string;
     logStatement "    " "log" "ERROR" "disk full";
     line_error;
     logStatement "    " "log" "INFO" EmptyString;
     line_bare_hash;
     "    return x"%string].
Proof. vm_compute. reflexivity. Qed.

(** Two instrumented functions: the logger of the last one serves both. *)
Example rewrite_src_two :
  rewrite src_two =
    ["from commentlogger import logcomments as lc"%string;
     "import logging"%string;
     EmptyString;
     "def f():"%string;
     logStatement "    " "b" "INFO" "one";
     "    x = 1  # one"%string;
     "def g():"%string;
     logStatement "    " "b" "WARNING" "two";
     "    y = 2  # warn: two"%string].
Proof. vm_compute. reflexivity. Qed.

(** C1, as stated, fails: the decorator line of [src_drop] is an original
    line and is not in the output. *)
Lemma decorator_line_dropped :
  ¬ (splitlines src_drop `sublist_of` rewrite src_drop).
Proof.
  intros H. assert (decorator_line ∈ rewrite src_drop) as Hin.
  { eapply elem_of_sublist; [|exact H]. compute_done. }
  revert Hin. compute_done.
Qed.

Lemma kept_lines_preserved_witness :
  shouldSkipDecoratorLine decorator_line src_drop = true ∧
  newLines (loop_body (locals_of src_drop) 1 decorator_line start) = bootstrap.
Proof.
  split; [reflexivity|].
  rewrite (proj1 (proj2 (proj2 (kept_lines_preserved src_drop)))
                 1%nat decorator_line start) by reflexivity.
  reflexivity.
Defined.

(** C2, as stated, fails: line 6 of [src_inst] has an empty comment text
    and a statement is injected before it all the same. *)
Lemma empty_comment_injected :
  splitlines src_inst !! 5%nat = Some line_bare_hash ∧
  strip <$> comment_match line_bare_hash = Some EmptyString ∧
  newLines (loop_body (locals_of src_inst) 5 line_bare_hash start) =
    [logStatement "    " "log" "INFO" EmptyString; line_bare_hash].
Proof. repeat split; vm_compute; reflexivity. Qed.

Lemma injection_condition_witness :
  ∃ stmt, newLines (loop_body (locals_of src_inst) 4 line_error start) =
            [stmt; line_error].
Proof.
  destruct (proj2 (injection_condition src_inst 4 line_error start))
    as [stmt H]; [|by exists stmt].
  split; [reflexivity|]. split; [discriminate|]. split; [reflexivity|].
  exists "f"%string. split; [reflexivity | compute_done].
Defined.

(** C3, as stated, fails: [src_drop] has no instrumented function, and
    its output is neither the input nor the input with the bootstrap. *)
Lemma uninstrumented_text_differs :
  (extractLoggerInfo src_drop).2 = ∅ ∧
  ¬ same_but_bootstrap src_drop (injectLogging src_drop).
Proof.
  split; [reflexivity|]. intros [H | (pre & post & H1 & H2)].
  - vm_compute in H. discriminate.
  - assert (String.length src_drop = 76%nat) as L1 by reflexivity.
    assert (String.length (injectLogging src_drop) = 63%nat) as L2
      by (vm_compute; reflexivity).
    rewrite H1 in L1. rewrite H2 in L2.
    rewrite !length_append in L1, L2. simpl in L2.
    change (EmptyString +:+ post) with post in L2. lia.
Qed.

Lemma uninstrumented_preserved_witness :
  ∃ pre post (b : bool),
    splitlines src_drop = pre ++ post ∧
    rewrite src_drop = kept src_drop pre ++ (if b then bootstrap else [])
                                         ++ kept src_drop post ∧
    (b = true → contains import_logging src_drop = false ∧ src_drop ≠ EmptyString).
Proof. apply (uninstrumented_preserved src_drop). reflexivity. Defined.

(** C4, as stated, fails: the first code line of [src_plain] is its first
    line, and the bootstrap comes after it. *)
Lemma import_after_first_line :
  contains import_logging src_plain = false ∧
  list_find (λ l, code_line l = true) (splitlines src_plain)
    = Some (0%nat, "x = 1"%string) ∧
  rewrite src_plain = ["x = 1"%string; import_logging; EmptyString; "y = 2"%string] ∧
  rewrite src_plain ≠ bootstrap ++ splitlines src_plain.
Proof. repeat split; try reflexivity. discriminate. Qed.

Lemma import_bootstrap_place_witness :
  rewrite src_plain = ["x = 1"%string; import_logging; EmptyString; "y = 2"%string].
Proof.
  apply (proj1 (proj2 (import_bootstrap_place src_plain) eq_refl)
               0%nat "y = 2"%string).
  - reflexivity.
  - reflexivity.
  - intros k y _ Hk. lia.
Defined.

Lemma logger_name_last_wins_witness :
  loggerName (locals_of src_two) = "b"%string ∧
  ∃ comment logLevel logMessage,
    parseComment comment = (logLevel, logMessage) ∧
    "    b.info(" +:+ dquote +:+ "one" +:+ dquote +:+ ")" =
      indent_match "    x = 1  # one" +:+ loggerName (locals_of src_two)
        +:+ "." +:+ lower logLevel
        +:+ "(" +:+ dquote +:+ logMessage +:+ dquote +:+ ")".
Proof.
  split.
  - apply (proj1 (proj2 (logger_name_last_wins src_two)) "g"%string "b"%string).
    + reflexivity.
    + discriminate.
  - apply (proj2 (proj2 (proj2 (logger_name_last_wins src_two))) 3%nat).
    vm_compute. reflexivity.
Defined.

Lemma unparsed_degrades_witness :
  extractLoggerInfo src_bad = (None, ∅) ∧
  newLines (loop_body (locals_of src_bad) 0 src_bad start) = [src_bad].
Proof.
  destruct (unparsed_degrades src_bad eq_refl) as (H1 & _ & H & _).
  split; [exact H1 | exact (H 0%nat src_bad start)].
Defined.



(** The output for [src_same]: the body line of the second [run] has a
    statement before it. *)
Example rewrite_src_same :
  rewrite (parser := SameName.parser) SameName.src_same =
    ["from commentlogger import logcomments as lc"%string;
     import_logging;
     EmptyString;
     "class A:"%string;
     "    def run(self):"%string;
     "        log.info(" +:+ dquote +:+ "a" +:+ dquote +:+ ")";
     "        x = 1  # a"%string;
     "class B:"%string;
     "    def run(self):"%string;
     SameName.stmt_b;
     SameName.line_b].
Proof. vm_compute. reflexivity. Qed.

End Instances.

(** * Further properties *)

(** ** The line-to-function map *)

Lemma elem_of_def_lines lineno end_lineno i :
  i ∈ def_lines lineno end_lineno ↔ lineno ≤ i ≤ last_line lineno end_lineno.
Proof.
  unfold def_lines, last_line. rewrite elem_of_seqZ.
  destruct end_lineno as [e|]; [destruct (e =? 0)|]; lia.
Qed.

Lemma lookup_fold_insert (name : string) (ks : list Z) (m : gmap Z string) i :
  fold_left (λ m k, <[k := name]> m) ks m !! i =
    if decide (i ∈ ks) then Some name else m !! i.
Proof.
  revert m. induction ks as [|k ks IH]; intros m; cbn [fold_left].
  - by rewrite decide_False by apply not_elem_of_nil.
  - rewrite IH. destruct (decide (i ∈ ks)) as [Hin|Hin].
    + by rewrite decide_True by (by right).
    + destruct (decide (i = k)) as [->|Hne].
      * rewrite lookup_insert_eq. by rewrite decide_True by (by left).
      * rewrite lookup_insert_ne by done.
        rewrite decide_False; [done|]. by intros [?|?]%elem_of_cons.
Qed.

Section LineMap.

Context {parser : Parser}.

Lemma lookup_map_lines m n i :
  map_lines m n !! i =
    match covers n i with Some name => Some name | None => m !! i end.
Proof.
  unfold map_lines, covers.
  destruct (as_def n) as [[[[name l] e] ds]|]; [|done].
  rewrite lookup_fold_insert.
  destruct (decide (i ∈ def_lines l e)) as [Hin|Hin];
    rewrite elem_of_def_lines in Hin.
  - replace ((l <=? i) && (i <=? last_line l e)) with true; [done|].
    symmetry. apply andb_true_iff. split; apply Z.leb_le; lia.
  - replace ((l <=? i) && (i <=? last_line l e)) with false; [done|].
    symmetry. apply not_true_is_false. rewrite andb_true_iff, !Z.leb_le. lia.
Qed.

Lemma lookup_fold_map_lines tree m i :
  fold_left map_lines tree m !! i =
    match last (covering tree i) with Some name => Some name | None => m !! i end.
Proof.
  revert m. induction tree as [|n tree IH]; intros m; [done|].
  cbn [fold_left]. rewrite IH, lookup_map_lines. unfold covering.
  cbn [omap list_omap]. fold (omap (λ n, covers n i) tree).
  destruct (covers n i) as [name|]; [|done].
  rewrite last_cons. by destruct (last _).
Qed.

(** X1: the line-to-function map gives a line the name of the last
    definition of the walk whose range, from its first line to its end line
    (its first line alone where the end line is missing), holds the line;
    a line in no definition, and every line of a source that does not
    parse, has no entry. *)
Theorem lineToFunction_last_covering src i :
  lineToFunction_of src !! i =
    match ast_parse src with
    | Some tree => last (covering tree i)
    | None => None
    end.
Proof.
  unfold lineToFunction_of. destruct (ast_parse src) as [tree|]; [|done].
  rewrite lookup_fold_map_lines, lookup_empty. by destruct (last _).
Qed.

End LineMap.

(** ** The levels of any table *)

Lemma insert_sorted_Sorted x l :
  Sorted leb_string l → Sorted leb_string (insert_sorted x l).
Proof.
  induction 1 as [|y r Hr IH Hhd]; cbn [insert_sorted].
  - by repeat constructor.
  - destruct (String.leb x y) eqn:E.
    + constructor; [by constructor|]. by constructor.
    + constructor; [done|].
      assert (leb_string y x) as Hyx.
      { destruct (String.leb_total x y) as [H|H]; [congruence | done]. }
      destruct r as [|z r]; cbn [insert_sorted]; [by constructor|].
      destruct (String.leb x z); constructor; [done|]. by inversion Hhd.
Qed.

Lemma sorted_Sorted l : Sorted leb_string (sorted l).
Proof.
  induction l as [|x l IH]; cbn [sorted fold_right]; [constructor|].
  by apply insert_sorted_Sorted.
Qed.

(** X2: whatever the table of level names, the list of levels is in
    ascending order, holds no two names of one rank where one is a proper
    beginning of the other, and holds exactly the names of the table that
    no other name of the same level starts with. *)
Theorem levels_of_any_table table :
  Sorted leb_string (levels_of table) ∧
  prefix_free table (levels_of table) ∧
  (∀ k, k ∈ levels_of table ↔
        ∃ v, (k, v) ∈ table ∧
             ∀ v', (k, v') ∈ table →
                   ¬ ∃ k', (k', v') ∈ table ∧ strict_prefix k k').
Proof.
  split; [apply sorted_Sorted|]. split; [apply levels_of_prefix_free|].
  intros k. rewrite elem_of_levels_of.
  split; intros (v & Hin & Hno); exists v; (split; [done|]); intros v' Hv'.
  - rewrite <- has_alias_true. rewrite (Hno v' Hv'). done.
  - apply not_true_is_false. rewrite has_alias_true. by apply Hno.
Qed.

(** ** The classifier *)

Lemma parseComment_level comment : (parseComment comment).1 ∈ LOGLEVELS.
Proof.
  unfold parseComment. destruct (partition ":" comment) as [[level sep] logline].
  destruct (String.eqb (strip level) EmptyString); [compute_done|].
  unfold resolveLevel.
  destruct (find _ LOGLEVELS) as [L|] eqn:E; [|compute_done].
  apply find_some in E as [Hin _]. by apply list_elem_of_In.
Qed.

(** X3: the level the classifier returns is always one of the canonical
    levels. *)
Theorem parseComment_canonical comment :
  (parseComment comment).1 ∈ LOGLEVELS.
Proof. apply parseComment_level. Qed.

Lemma upper_nonempty (p : string) : p ≠ EmptyString → upper p ≠ EmptyString.
Proof. by destruct p. Qed.

(** X4: a text that is not empty is the beginning, upper-cased, of at most
    one canonical level, which is then the level it resolves to: the order
    of the levels never decides. *)
Theorem resolveLevel_unambiguous p L :
  p ≠ EmptyString → L ∈ LOGLEVELS → startswith L (upper p) = true →
  resolveLevel p = Some L.
Proof.
  intros Hp HL Hs. apply upper_nonempty in Hp. unfold resolveLevel.
  destruct (upper p) as [|c r]; [done|]. clear Hp.
  rewrite LOGLEVELS_value in *. unfold startswith in *.
  repeat (apply elem_of_cons in HL as [->|HL]); [..|by apply elem_of_nil in HL];
    cbn [String.prefix] in Hs;
    match type of Hs with
    | context [ascii_dec c ?d] => destruct (ascii_dec c d) as [->|]; [|done]
    end;
    cbn [find String.prefix]; simpl; by rewrite ?Hs.
Qed.

Lemma resolveLevel_unambiguous_witness : resolveLevel "cri" = Some "CRITICAL"%string.
Proof.
  apply resolveLevel_unambiguous; [discriminate | compute_done | reflexivity].
Defined.

(** ** Runs of characters, continued *)

Lemma take_drop_while p (s : string) : take_while p s +:+ drop_while p s = s.
Proof.
  induction s as [|c s IH]; [done|]. cbn [take_while drop_while].
  destruct (p c); [|done]. by rewrite append_String, IH.
Qed.

Lemma take_while_all_chars p (s : string) : all_chars p (take_while p s) = true.
Proof.
  induction s as [|c s IH]; [done|]. cbn [take_while].
  destruct (p c) eqn:E; [|done]. cbn [all_chars]. by rewrite E, IH.
Qed.

Lemma drop_while_idem p (s : string) : drop_while p (drop_while p s) = drop_while p s.
Proof.
  induction s as [|c s IH]; [done|]. cbn [drop_while].
  destruct (p c) eqn:E; [done|]. cbn [drop_while]. by rewrite E.
Qed.

Lemma drop_while_all_chars p q (s : string) :
  all_chars q s = true → all_chars q (drop_while p s) = true.
Proof.
  induction s as [|c s IH]; [done|]. cbn [all_chars drop_while].
  intros [Hc Hs]%andb_true_iff. destruct (p c); [auto|].
  cbn [all_chars]. by rewrite Hc, Hs.
Qed.

Lemma take_while_whole p (s : string) : all_chars p s = true → take_while p s = s.
Proof.
  induction s as [|c s IH]; [done|]. cbn [all_chars take_while].
  intros [Hc Hs]%andb_true_iff. by rewrite Hc, IH.
Qed.

Lemma after_hash_all_chars q (s r : string) :
  all_chars q s = true → after_hash s = Some r → all_chars q r = true.
Proof.
  induction s as [|c s IH]; [done|]. cbn [all_chars after_hash].
  intros [Hc Hs]%andb_true_iff. destruct (Ascii.eqb c "#"); [|auto].
  by intros [= <-].
Qed.

(** The decorator pattern matches only lines of its shape. *)
Lemma decorator_match_inv (s name : string) :
  decorator_match s = Some name →
  ∃ ws rest,
    s = "@" +:+ name +:+ ws +:+ "(" +:+ rest ∧ name ≠ EmptyString ∧
    all_chars is_name_char name = true ∧ all_chars is_space ws = true.
Proof.
  destruct s as [|c r]; [done|].
  destruct (ascii_dec c "@") as [->|Hc].
  - cbn [decorator_match].
    destruct (String.eqb (take_while is_name_char r) EmptyString) eqn:E; [done|].
    destruct (drop_while is_space (drop_while is_name_char r)) as [|d rest] eqn:F;
      [done|].
    destruct (ascii_dec d "(") as [->|Hd].
    + intros [= <-].
      exists (take_while is_space (drop_while is_name_char r)), rest.
      split; [|split; [by apply String.eqb_neq | split; apply take_while_all_chars]].
      rewrite append_String, append_nil_l. f_equal.
      change ("(" +:+ rest) with (String "(" rest).
      rewrite <- F, take_drop_while. by rewrite take_drop_while.
    + destruct d as [[] [] [] [] [] [] [] []]; done.
  - destruct c as [[] [] [] [] [] [] [] []]; done.
Qed.

(** ** Lines *)

Lemma splitlines_in_line_aux n : ∀ s,
  (String.length s < n)%nat →
  Forall (λ l, all_chars in_line l = true) (splitlines s).
Proof.
  induction n as [|n IH]; intros s Hn; [lia|].
  destruct s as [|c r]; [constructor|]. cbn [splitlines].
  cbn [String.length] in Hn. destruct (is_linebreak c) eqn:E.
  - destruct r as [|d r'].
    + by repeat constructor.
    + cbn [String.length] in Hn.
      destruct (_ && _); constructor; try done; apply IH; cbn [String.length]; lia.
  - assert (Forall (λ l, all_chars in_line l = true) (splitlines r)) as Hr
      by (apply IH; lia).
    destruct (splitlines r) as [|l ls].
    + repeat constructor. cbn [all_chars]. unfold in_line. by rewrite E.
    + inversion Hr as [|? ? Hl Hls]; subst. constructor; [|done].
      cbn [all_chars]. unfold in_line at 1. by rewrite E, Hl.
Qed.

Lemma splitlines_in_line s :
  Forall (λ l, all_chars in_line l = true) (splitlines s).
Proof. apply (splitlines_in_line_aux (S (String.length s))). lia. Qed.

Lemma in_line_not_LF (s : string) :
  all_chars in_line s = true →
  all_chars (λ c, negb (Ascii.eqb c LF)) s = true.
Proof.
  induction s as [|c s IH]; [done|]. cbn [all_chars].
  intros [Hc Hs]%andb_true_iff. rewrite IH by done.
  rewrite andb_true_r. destruct (Ascii.eqb c LF) eqn:E; [|done].
  apply Ascii.eqb_eq in E. by subst c.
Qed.

Lemma splitlines_nil s : splitlines s = [] ↔ s = EmptyString.
Proof.
  split; [|by intros ->]. destruct s as [|c r]; [done|]. cbn [splitlines].
  destruct (is_linebreak c).
  - destruct r as [|d r']; [done|]. by destruct (_ && _).
  - by destruct (splitlines r).
Qed.

(** X5: no line the loop works on holds a line boundary, so the comment
    text of a line is all the text after its first hash, stripped. *)
Theorem comment_text_of_line src line :
  line ∈ splitlines src →
  all_chars in_line line = true ∧
  ∀ r, after_hash line = Some r →
       strip <$> comment_match line = Some (strip r).
Proof.
  intros Hin. pose proof (splitlines_in_line src) as H.
  rewrite Forall_forall in H. specialize (H line Hin). split; [done|].
  intros r Hr. unfold comment_match. rewrite Hr. cbn. f_equal.
  unfold split_first. rewrite take_while_whole.
  - unfold strip, lstrip. by rewrite drop_while_idem.
  - apply in_line_not_LF, drop_while_all_chars.
    by eapply after_hash_all_chars.
Qed.

Lemma comment_text_of_line_witness :
  strip <$> comment_match Examples.line_error = Some "error: disk full"%string.
Proof.
  rewrite (proj2 (comment_text_of_line Examples.src_inst Examples.line_error
                    ltac:(compute_done)) " error: disk full"%string)
    by reflexivity.
  reflexivity.
Defined.

(** ** The bound names and the filter *)

Section Bound.

Context {parser : Parser}.

Lemma add_imports_mono x s n : x ∈ s → x ∈ add_imports s n.
Proof.
  intros Hx. destruct n as [module names|names| | |]; cbn [add_imports]; try done.
  - case_bool_decide; [|done]. revert s Hx.
    induction names as [|a names IH]; intros s Hx; cbn [fold_left]; [done|].
    apply IH, elem_of_union. by right.
  - revert s Hx.
    induction names as [|a names IH]; intros s Hx; cbn [fold_left]; [done|].
    apply IH. destruct (String.eqb _ _); [|done]. apply elem_of_union. by right.
Qed.

Lemma clNames_fold_mono x tree s :
  x ∈ s → x ∈ fold_left add_imports tree s.
Proof.
  revert s. induction tree as [|n tree IH]; intros s Hx; cbn [fold_left]; [done|].
  by apply IH, add_imports_mono.
Qed.

Lemma imports_name_add x d s n :
  imports_name x d n = true → x ∈ add_imports s n ∨ d ∈ add_imports s n.
Proof.
  destruct n as [module names|names| | |]; cbn [imports_name add_imports]; try done.
  - intros [Hm Hex]%andb_true_iff. rewrite Hm. revert s.
    induction names as [|a names IH]; intros s; cbn [existsb fold_left] in *; [done|].
    apply orb_true_iff in Hex as [Ha|Hex]; [|by apply IH].
    assert (asname_or a (alias_name a) ∈ {[asname_or a (alias_name a)]} ∪ s) as Hin
      by (apply elem_of_union; left; by apply elem_of_singleton).
    pose proof (add_imports_mono _ _ (ImportFrom module names) Hin) as Hfold.
    cbn [add_imports] in Hfold. rewrite Hm in Hfold.
    apply orb_true_iff in Ha as [->%String.eqb_eq| ->%String.eqb_eq]; auto.
  - intros Hex. left. revert s.
    induction names as [|a names IH]; intros s; cbn [existsb fold_left] in *; [done|].
    apply orb_true_iff in Hex as [Ha|Hex]; [|by apply IH].
    apply andb_true_iff in Ha as [Hn ->%String.eqb_eq]. rewrite Hn.
    apply String.eqb_eq in Hn. rewrite Hn.
    apply (add_imports_mono _ _ (Import names)).
    apply elem_of_union. left. by apply elem_of_singleton.
Qed.

Lemma existsb_imports_name x d tree :
  existsb (imports_name x d) tree = true →
  x ∈ clNames_of tree ∨ d ∈ clNames_of tree.
Proof.
  unfold clNames_of. generalize (∅ : gset string).
  induction tree as [|n tree IH]; intros s; cbn [existsb fold_left]; [done|].
  intros [Hn|Ht]%orb_true_iff; [|by apply IH].
  destruct (imports_name_add x d s n Hn); [left|right];
    by apply clNames_fold_mono.
Qed.

Lemma skipped_is_bound line src :
  shouldSkipDecoratorLine line src = true →
  ∃ name ws rest tree,
    strip line = "@" +:+ name +:+ ws +:+ "(" +:+ rest ∧
    name ≠ EmptyString ∧ all_chars is_name_char name = true ∧
    all_chars is_space ws = true ∧
    ast_parse src = Some tree ∧
    (split_first "." name ∈ clNames_of tree ∨ name ∈ clNames_of tree).
Proof.
  unfold shouldSkipDecoratorLine. destruct (negb _); [done|].
  destruct (decorator_match (strip line)) as [name|] eqn:E; [|done].
  destruct (ast_parse src) as [tree|]; [|done]. intros H.
  apply decorator_match_inv in E as (ws & rest & Hs & Hne & Hn & Hw).
  exists name, ws, rest, tree. repeat split; try done.
  by apply existsb_imports_name.
Qed.

(** X6: the decorator filter skips a line only if the stripped line has
    the shape of a decorator call and the name called, or the part of it
    before its first dot, is bound to commentlogger by an import of the
    source; it never skips any other line. *)
Theorem skip_only_bound line src :
  shouldSkipDecoratorLine line src = true →
  ∃ name ws rest tree,
    strip line = "@" +:+ name +:+ ws +:+ "(" +:+ rest ∧
    name ≠ EmptyString ∧ all_chars is_name_char name = true ∧
    all_chars is_space ws = true ∧
    ast_parse src = Some tree ∧
    (split_first "." name ∈ clNames_of tree ∨ name ∈ clNames_of tree).
Proof. apply skipped_is_bound. Qed.

Lemma add_imports_unmentioned s n :
  mentions_commentlogger n = false → add_imports s n = s.
Proof.
  destruct n as [module names|names| | |];
    cbn [mentions_commentlogger add_imports]; try done.
  - by intros ->.
  - revert s. induction names as [|a names IH]; intros s; cbn [existsb fold_left];
      [done|].
    intros [-> Hr]%orb_false_iff. by apply IH.
Qed.

Lemma clNames_unmentioned tree :
  Forall (λ n, mentions_commentlogger n = false) tree → clNames_of tree = ∅.
Proof.
  intros Hall. unfold clNames_of. generalize (∅ : gset string).
  induction Hall as [|n tree Hn _ IH]; intros s; cbn [fold_left]; [done|].
  by rewrite add_imports_unmentioned.
Qed.

Lemma is_marker_unbound func : is_marker ∅ func = false.
Proof.
  unfold is_marker, decoratorName_of.
  destruct func as [id|[m| | |] attr| |]; try done.
  rewrite !bool_decide_eq_false_2 by apply not_elem_of_empty.
  by rewrite andb_false_r.
Qed.

Lemma instrumented_unbound src tree :
  ast_parse src = Some tree → clNames_of tree = ∅ → instrumented src = [].
Proof.
  intros Hp Hc. unfold instrumented. rewrite Hp, Hc.
  apply elem_of_nil_inv. intros [f id] (n & Hm & _)%list_elem_of_bind.
  apply elem_of_markers_of in Hm as (_ & _ & _ & func & _ & _ & _ & Hm & _).
  by rewrite is_marker_unbound in Hm.
Qed.

(** X7: a source that parses and neither imports from commentlogger nor
    imports commentlogger has no logger and no instrumented function, none
    of its lines is skipped, and the output is its lines with at most the
    import bootstrap. *)
Theorem unmarked_source_untouched src tree :
  ast_parse src = Some tree →
  Forall (λ n, mentions_commentlogger n = false) tree →
  extractLoggerInfo src = (None, ∅) ∧
  (∀ line, shouldSkipDecoratorLine line src = false) ∧
  ∃ pre post (b : bool),
    splitlines src = pre ++ post ∧
    rewrite src = pre ++ (if b then bootstrap else []) ++ post.
Proof.
  intros Hp Hall. pose proof (clNames_unmentioned tree Hall) as Hc.
  assert (extractLoggerInfo src = (None, ∅)) as He.
  { rewrite extractLoggerInfo_instrumented.
    by rewrite (instrumented_unbound src tree). }
  assert (∀ line, shouldSkipDecoratorLine line src = false) as Hs.
  { intros line. apply not_true_is_false.
    intros (name & ws & rest & tree' & _ & _ & _ & _ & Hp' & Hb)%skipped_is_bound.
    rewrite Hp in Hp'. injection Hp' as <-. rewrite Hc in Hb.
    destruct Hb as [Hb|Hb]; by apply not_elem_of_empty in Hb. }
  split; [done|]. split; [done|].
  destruct (locals_of_fields src) as (HS & HD & _).
  destruct (rewrite_split src) as (pre & post & b & Hl & Hr & _).
  exists pre, post, b. split; [done|].
  rewrite Hr, !emits_kept, HS, !kept_all; [done|done|done|..];
    intros j line; apply no_functions_no_injection; by rewrite HD, He.
Qed.

End Bound.

(** ** The output as a whole *)

Section Output.

Context {parser : Parser}.

Lemma injection_statement L i line stmt :
  injection L i line = Some stmt →
  ∃ logLevel logMessage,
    logLevel ∈ LOGLEVELS ∧
    stmt = logStatement (indent_match line) (loggerName L) logLevel logMessage.
Proof.
  unfold injection. destruct (comment_match line) as [g|]; [|done].
  destruct (_ && _ && _); [|done].
  pose proof (parseComment_level (strip g)) as Hl.
  destruct (parseComment (strip g)) as [lvl msg]. intros [= <-]. eauto.
Qed.

Lemma elem_of_emits L i lines x :
  x ∈ emits L i lines →
  x ∈ lines ∨ ∃ j line, line ∈ lines ∧ injection L j line = Some x.
Proof.
  revert i. induction lines as [|line rest IH]; intros i; cbn [emits].
  - by intros ?%elem_of_nil.
  - intros [Hx|Hx]%elem_of_app.
    + unfold emit in Hx. destruct (shouldSkipDecoratorLine _ _).
      { by apply elem_of_nil in Hx. }
      destruct (injection L i line) as [stmt|] eqn:E.
      * apply elem_of_cons in Hx as [->|Hx].
        -- right. exists i, line. split; [by left | done].
        -- apply list_elem_of_singleton in Hx as ->. left. by left.
      * apply list_elem_of_singleton in Hx as ->. left. by left.
    + destruct (IH _ Hx) as [H|(j & l & Hl & Hj)].
      * left. by right.
      * right. exists j, l. split; [by right | done].
Qed.

Lemma length_emits L i lines :
  (length (emits L i lines) ≤ 2 * length lines)%nat.
Proof.
  revert i. induction lines as [|line rest IH]; intros i; cbn [emits]; [done|].
  rewrite length_app. specialize (IH (S i)). cbn [length].
  assert (length (emit L i line) ≤ 2)%nat; [|lia].
  unfold emit. destruct (shouldSkipDecoratorLine _ _); [simpl; lia|].
  destruct (injection L i line); simpl; lia.
Qed.

(** X8: every line of the output is a line of the input, a line of the
    import bootstrap, or a log statement made for a line of the input:
    that line's indentation, the logger's name, a dot, a canonical level in
    lower case and the message in brackets and quotes. *)
Theorem output_lines_origin src x :
  x ∈ rewrite src →
  x ∈ splitlines src ∨ x ∈ bootstrap ∨
  ∃ line logLevel logMessage,
    line ∈ splitlines src ∧ logLevel ∈ LOGLEVELS ∧
    x = logStatement (indent_match line) (loggerName (locals_of src))
                     logLevel logMessage.
Proof.
  destruct (rewrite_split src) as (pre & post & b & Hl & Hr & _).
  rewrite Hr, Hl. intros [Hx|[Hx|Hx]%elem_of_app]%elem_of_app.
  - apply elem_of_emits in Hx as [Hx|(j & line & Hin & Hj)].
    + left. apply elem_of_app. by left.
    + right. right. apply injection_statement in Hj as (lvl & msg & Hlvl & ->).
      exists line, lvl, msg. split; [apply elem_of_app; by left | done].
  - right. left. by destruct b; [|apply elem_of_nil in Hx].
  - apply elem_of_emits in Hx as [Hx|(j & line & Hin & Hj)].
    + left. apply elem_of_app. by right.
    + right. right. apply injection_statement in Hj as (lvl & msg & Hlvl & ->).
      exists line, lvl, msg. split; [apply elem_of_app; by right | done].
Qed.

(** X9: the output has at least as many lines as the input has lines that
    the decorator filter keeps, and at most two for each line of the input
    and two more. *)
Theorem output_line_count src :
  (length (kept src (splitlines src)) ≤ length (rewrite src)
     ≤ 2 * length (splitlines src) + 2)%nat.
Proof.
  destruct (locals_of_fields src) as (HS & _).
  destruct (rewrite_split src) as (pre & post & b & Hl & Hr & _).
  rewrite Hr, Hl, kept_app, !length_app. split.
  - pose proof (sublist_length _ _ (kept_sublist_emits (locals_of src) 0 pre)).
    pose proof (sublist_length _ _
                  (kept_sublist_emits (locals_of src) (length pre) post)).
    rewrite HS in *. lia.
  - pose proof (length_emits (locals_of src) 0 pre).
    pose proof (length_emits (locals_of src) (length pre) post).
    destruct b; simpl; lia.
Qed.

(** X10: the empty source gives the empty text, and a source of one line
    never receives the import bootstrap: its output is the line, after the
    injected statement if there is one, or nothing if the line is skipped. *)
Theorem short_source src :
  (src = EmptyString → injectLogging src = EmptyString) ∧
  (∀ line, splitlines src = [line] →
           rewrite src =
             if shouldSkipDecoratorLine line src then []
             else option_list (injection (locals_of src) 0 line) ++ [line]).
Proof.
  split; [by intros ->|]. intros line Hl.
  destruct (locals_of_fields src) as (HS & _).
  pose proof (rewrite_emits src) as H. cbv zeta in H. rewrite Hl in H.
  cbn [tail list_find] in H.
  assert (rewrite src = emit (locals_of src) 0 line) as ->.
  { destruct (contains import_logging src); rewrite H; cbn [emits];
      by rewrite app_nil_r. }
  unfold emit. rewrite HS. destruct (shouldSkipDecoratorLine line src); [done|].
  by destruct (injection _ _ _).
Qed.

(** X11: a function is in the instrumented set exactly when the walk holds
    a definition of that name with a decorator that calls a name bound to
    commentlogger with a bare identifier as first argument; and no logger
    is detected exactly when that set is empty. *)
Theorem instrumented_set src :
  (∀ f, f ∈ (extractLoggerInfo src).2 ↔
        ∃ tree n l e ds func args id,
          ast_parse src = Some tree ∧ n ∈ tree ∧
          as_def n = Some (f, l, e, ds) ∧ Call func args ∈ ds ∧
          is_marker (clNames_of tree) func = true ∧
          bare_first_arg args = Some id) ∧
  ((extractLoggerInfo src).1 = None ↔ (extractLoggerInfo src).2 = ∅).
Proof.
  rewrite extractLoggerInfo_instrumented. cbn [fst snd]. split.
  - intros f. rewrite elem_of_list_to_set, list_elem_of_fmap.
    unfold instrumented. split.
    + intros ([f' id] & -> & Hin). destruct (ast_parse src) as [tree|];
        [|by apply elem_of_nil in Hin].
      apply list_elem_of_bind in Hin as (n & Hm & Hn).
      apply elem_of_markers_of in Hm as (l & e & ds & func & args & ? & ? & ? & ?).
      by exists tree, n, l, e, ds, func, args, id.
    + intros (tree & n & l & e & ds & func & args & id & -> & Hn & Ha & Hd & Hm & Hb).
      exists (f, id). split; [done|]. apply list_elem_of_bind. exists n.
      split; [|done]. unfold markers_of. rewrite Ha.
      apply list_elem_of_omap. exists (Call func args). split; [done|].
      by rewrite Hm, Hb.
  - destruct (instrumented src) as [|p l] using rev_ind.
    + done.
    + rewrite last_snoc, fmap_app, list_to_set_app_L. cbn. split; [done|].
      intros H. assert (p.1 ∈ (∅ : gset string)) as Hin; [|by apply not_elem_of_empty in Hin].
      rewrite <- H. apply elem_of_union. right. apply elem_of_union. left.
      by apply elem_of_singleton.
Qed.

(** X12: where the logger's name does not begin with a space, an injected
    statement has the indentation of the line it precedes. *)
Theorem injected_indentation src i line stmt :
  injection (locals_of src) i line = Some stmt →
  indent_match (loggerName (locals_of src)) = EmptyString →
  indent_match stmt = indent_match line.
Proof.
  intros (lvl & msg & _ & ->)%injection_statement Hname.
  unfold logStatement, indent_match in *.
  rewrite take_while_all by apply take_while_all_chars.
  set (rest := "." +:+ _).
  assert (take_while is_space (loggerName (locals_of src) +:+ rest) = EmptyString)
    as ->; [|by rewrite append_nil_r].
  destruct (loggerName (locals_of src)) as [|c r]; [done|].
  rewrite append_String. cbn [take_while] in *. by destruct (is_space c).
Qed.

End Output.

(** ** The further properties on the example sources *)

Section MoreInstances.

Import Examples.
#[local] Existing Instance Examples.parser.

Lemma skip_only_bound_witness :
  ∃ name ws rest tree,
    strip decorator_line = "@" +:+ name +:+ ws +:+ "(" +:+ rest ∧
    name ≠ EmptyString ∧ all_chars is_name_char name = true ∧
    all_chars is_space ws = true ∧
    ast_parse src_drop = Some tree ∧
    (split_first "." name ∈ clNames_of tree ∨ name ∈ clNames_of tree).
Proof. apply (skip_only_bound decorator_line src_drop). reflexivity. Defined.

Lemma unmarked_source_untouched_witness :
  extractLoggerInfo src_plain = (None, ∅) ∧
  (∀ line, shouldSkipDecoratorLine line src_plain = false) ∧
  ∃ pre post (b : bool),
    splitlines src_plain = pre ++ post ∧
    rewrite src_plain = pre ++ (if b then bootstrap else []) ++ post.
Proof.
  apply (unmarked_source_untouched src_plain walk_plain); [reflexivity|].
  unfold walk_plain, others. cbn [repeat]. repeat constructor.
Defined.

Lemma output_lines_origin_witness :
  line_error ∈ splitlines src_inst ∨ line_error ∈ bootstrap ∨
  ∃ line logLevel logMessage,
    line ∈ splitlines src_inst ∧ logLevel ∈ LOGLEVELS ∧
    line_error = logStatement (indent_match line)
                   (loggerName (locals_of src_inst)) logLevel logMessage.
Proof. apply (output_lines_origin src_inst line_error). compute_done. Defined.

Lemma short_source_witness :
  rewrite src_bad = [src_bad].
Proof.
  rewrite (proj2 (short_source src_bad) src_bad) by reflexivity. reflexivity.
Defined.

Lemma instrumented_set_witness :
  "f"%string ∈ (extractLoggerInfo src_inst).2.
Proof.
  apply (proj1 (instrumented_set src_inst) "f"%string).
  exists walk_inst,
    (FunctionDef "f" 4 (Some 7) [Call (Name "logcomments") [Name "log"]]),
    4, (Some 7), [Call (Name "logcomments") [Name "log"]],
    (Name "logcomments"), [Name "log"], "log"%string.
  split; [reflexivity|]. split.
  { apply list_elem_of_lookup. by exists 3%nat. }
  split; [reflexivity|]. split; [by left|]. split; reflexivity.
Defined.

Lemma injected_indentation_witness :
  indent_match (logStatement "    " "log" "ERROR" "disk full") = "    "%string.
Proof.
  apply (injected_indentation src_inst 4 line_error); reflexivity.
Defined.

End MoreInstances.
